(** * The regular hypervolume-based algorithm, greedy version

    A shallow embedding of [examples/ga/mo_rhv.py] of DEAP and the
    properties of its environmental selection.

    Python floats are IEEE binary64 numbers: they are Rocq's primitive
    floats.  Individuals are mutable objects that several lists refer to:
    they live in a heap, a list indexed by allocation order, and populations
    and fronts are lists of locations.  The program runs in a state monad
    over the heap, the state of Python's random module, the log of the calls
    made to the sorter and to the hypervolume routine, and the standard
    output; a Python exception stops the run and keeps the state reached. *)

From Stdlib Require Import ZArith Lia Bool Floats.
From stdpp Require Import base option list sorting.

(** ** Python values *)

(** [NoObject] is not an exception of Python: it marks a location that
    denotes no object of the heap, which a Python reference never is. *)
Inductive Exception := ValueError | TypeError | NoObject.

Inductive Result (A : Type) :=
  | Ok (a : A)
  | Raise (e : Exception).
Arguments Ok {A} a.
Arguments Raise {A} e.

Abbreviation point := (list float).
Abbreviation loc := nat.

(** ** Fitness and individuals *)

(** Modelled from the spec: [deap.base.Fitness], whose file is not among the
    sources.  A fitness caches a tuple of objective values together with a
    validity flag; DEAP maximises, so the cache [wvalues] holds the values
    multiplied by the [weights] of the class of the fitness (negative for a
    minimised objective), and the fitness is valid when the cache is not
    empty. *)
Record FitnessClass := mkFitnessClass { weights : list float }.

Record Fitness := mkFitness { wvalues : list float }.

Definition new_Fitness : Fitness := {| wvalues := [] |}.

Definition valid (f : Fitness) : bool := negb (Nat.eqb (length (wvalues f)) 0).

Definition set_values (c : FitnessClass) (vs : list float) : Fitness :=
  {| wvalues := zip_with PrimFloat.mul vs (weights c) |}.

Definition del_values : Fitness := {| wvalues := [] |}.

Definition values (c : FitnessClass) (f : Fitness) : list float :=
  zip_with PrimFloat.div (wvalues f) (weights c).

(** [creator.create("FitnessMin", base.Fitness, weights=(-1.0, -1.0))] *)
Definition FitnessMin : FitnessClass :=
  {| weights := [(-1)%float; (-1)%float] |}.

(** [creator.create("FitnessHV", base.Fitness, weights=(1.0,))] *)
Definition FitnessHV : FitnessClass :=
  {| weights := [1%float] |}.

(** [creator.create("Individual", array.array, typecode='d',
    fitness=creator.FitnessMin, fitness_hv=creator.FitnessHV)] *)
Record Individual := mkIndividual {
  genome : list float;
  fitness : Fitness;
  fitness_hv : Fitness
}.

Definition new_Individual (g : list float) : Individual :=
  {| genome := g; fitness := new_Fitness; fitness_hv := new_Fitness |}.

(** Assignments to [ind.fitness] and [ind.fitness_hv]. *)
Definition with_fitness (f : Fitness) (ind : Individual) : Individual :=
  {| genome := genome ind; fitness := f; fitness_hv := fitness_hv ind |}.

Definition with_fitness_hv (f : Fitness) (ind : Individual) : Individual :=
  {| genome := genome ind; fitness := fitness ind; fitness_hv := f |}.

(** ** Problem definition *)

Definition BOUND_LOW : float := 0%float.
Definition BOUND_UP : float := 1%float.
Definition NDIM : nat := 30.

(** ** numpy on two-dimensional float arrays *)

(** [numpy.array(rows)] needs rows of one length. *)
Definition rectangular (rows : list point) : bool :=
  match rows with
  | [] => true
  | r :: rs => forallb (λ r', Nat.eqb (length r') (length r)) rs
  end.

Definition np_array (rows : list point) : Result (list point) :=
  if rectangular rows then Ok rows else Raise ValueError.

(** [numpy.maximum], [numpy.minimum]: the first argument wins a tie and a
    NaN is propagated. *)
Definition np_maximum (a b : float) : float :=
  if (PrimFloat.leb b a || is_nan a)%bool then a else b.

Definition np_minimum (a b : float) : float :=
  if (PrimFloat.leb a b || is_nan a)%bool then a else b.

(** [numpy.max(a, axis=0)], [numpy.min(a, axis=0)]: a reduction over the
    rows, which an array without rows does not have. *)
Definition np_reduce_axis0 (op : float → float → float) (a : list point)
  : Result point :=
  match a with
  | [] => Raise ValueError
  | r :: rs => Ok (foldl (zip_with op) r rs)
  end.

Definition np_max_axis0 : list point → Result point := np_reduce_axis0 np_maximum.
Definition np_min_axis0 : list point → Result point := np_reduce_axis0 np_minimum.

(** ** The collaborators *)

(** What the program calls outside of itself, in call order. *)
Inductive Call :=
  | CallSort (pool : list loc) (k : nat)
  | CallHypervolume (pointset : list point) (ref : point).

Record StatRecord := mkStatRecord { stat_min : point; stat_max : point }.

Record LogEntry := mkLogEntry { log_gen : nat; log_evals : nat; log_stats : StatRecord }.

Inductive Output :=
  | PrintStream (e : LogEntry)
  | PrintFinal (hv : float).

(** Python's [random] module over a generator state of type [Rng]. *)
Record PyRandom (Rng : Type) := mkPyRandom {
  seed : Z → Rng;
  random : Rng → float * Rng;
  randbelow : nat → Rng → nat * Rng
}.
Arguments seed {Rng} _ _.
Arguments random {Rng} _ _.
Arguments randbelow {Rng} _ _ _.

(** The operators registered in the toolbox and the routines of DEAP they
    stand for: [benchmarks.zdt1], [tools.cxSimulatedBinaryBounded],
    [tools.mutPolynomialBounded], [tools.sortLogNondominated],
    [hv.hypervolume] and [benchmarks.tools.hypervolume]. *)
Record Toolbox (Rng : Type) := mkToolbox {
  py : PyRandom Rng;
  evaluate : Individual → list float;
  mate : Individual → Individual → Rng → Individual * Individual * Rng;
  mutate : Individual → Rng → Individual * Rng;
  sort : list Individual → list loc → nat → list (list loc);
  hypervolume : list point → point → float;
  final_hypervolume : list Individual → point → float
}.
Arguments py {Rng} _.
Arguments evaluate {Rng} _ _.
Arguments mate {Rng} _ _ _ _.
Arguments mutate {Rng} _ _ _.
Arguments sort {Rng} _ _ _ _.
Arguments hypervolume {Rng} _ _ _.
Arguments final_hypervolume {Rng} _ _ _.

(** ** The state monad *)

Record World (Rng : Type) := mkWorld {
  heap : list Individual;
  rng : Rng;
  calls : list Call;
  stdout : list Output
}.
Arguments mkWorld {Rng} _ _ _ _.
Arguments heap {Rng} _.
Arguments rng {Rng} _.
Arguments calls {Rng} _.
Arguments stdout {Rng} _.

Definition Py (Rng A : Type) : Type := World Rng → Result A * World Rng.

#[export] Instance Py_ret {Rng} : MRet (Py Rng) := λ A a w, (Ok a, w).

#[export] Instance Py_bind {Rng} : MBind (Py Rng) := λ A B f m w,
  match m w with
  | (Ok a, w') => f a w'
  | (Raise e, w') => (Raise e, w')
  end.

Section Program.
Context {Rng : Type} (toolbox : Toolbox Rng).

Definition raise {A} (e : Exception) : Py Rng A := λ w, (Raise e, w).

Definition lift {A} (r : Result A) : Py Rng A := λ w, (r, w).

(** Reading and writing the object at a location.  Python has no dangling
    reference: a location outside the heap denotes no object, and the run
    stops there. *)
Definition read (l : loc) : Py Rng Individual := λ w,
  match heap w !! l with
  | Some ind => (Ok ind, w)
  | None => (Raise NoObject, w)
  end.

Definition write (l : loc) (ind : Individual) : Py Rng unit := λ w,
  (Ok (), mkWorld (<[l := ind]> (heap w)) (rng w) (calls w) (stdout w)).

Definition alloc (ind : Individual) : Py Rng loc := λ w,
  (Ok (length (heap w)), mkWorld (heap w ++ [ind]) (rng w) (calls w) (stdout w)).

Definition log_call (c : Call) : Py Rng unit := λ w,
  (Ok (), mkWorld (heap w) (rng w) (calls w ++ [c]) (stdout w)).

Definition print (o : Output) : Py Rng unit := λ w,
  (Ok (), mkWorld (heap w) (rng w) (calls w) (stdout w ++ [o])).

Definition with_rng {A} (f : Rng → A * Rng) : Py Rng A := λ w,
  let '(a, g) := f (rng w) in
  (Ok a, mkWorld (heap w) g (calls w) (stdout w)).

Definition get_heap : Py Rng (list Individual) := λ w, (Ok (heap w), w).

(** [hv.hypervolume(pointset, ref)] *)
Definition hv_hypervolume (pointset : list point) (ref : point) : Py Rng float :=
  log_call (CallHypervolume pointset ref);;
  mret (hypervolume toolbox pointset ref).

(** ** [hypervolume_contrib] *)

(** The local function [contribution] of [hypervolume_contrib]. *)
Definition contribution (wobj : list point) (ref : point) (total_hv : float)
    (i : nat) : Py Rng float :=
  h ← hv_hypervolume (take i wobj ++ drop (S i) wobj) ref;
  mret (total_hv - h)%float.

Definition hypervolume_contrib (front : list loc) (kargs_ref : option point)
    : Py Rng (list float) :=
  rows ← mapM (λ l, ind ← read l; mret (wvalues (fitness ind))) front;
  arr ← lift (np_array rows);
  let wobj := map (map (λ x, x * (-1))%float) arr in
  ref ← match kargs_ref with
        | Some r => mret r
        | None => m ← lift (np_max_axis0 wobj); mret (map (λ x, x + 1)%float m)
        end;
  total_hv ← hv_hypervolume wobj ref;
  mapM (contribution wobj ref total_hv) (seq 0 (length front)).

(** A [for] loop over a list. *)
Fixpoint for_each {A} (body : A → Py Rng unit) (l : list A) : Py Rng unit :=
  match l with
  | [] => mret ()
  | x :: l' => body x;; for_each body l'
  end.

(** ** The operators of [deap.tools] the program calls *)

(** The order of Python on tuples of floats, by which two fitnesses
    compare. *)
Fixpoint tuple_lt (a b : list float) : bool :=
  match a, b with
  | [], [] => false
  | [], _ :: _ => true
  | _ :: _, [] => false
  | x :: a', y :: b' => if (x =? y)%float then tuple_lt a' b' else (x <? y)%float
  end.

Definition fitness_lt (f1 f2 : Fitness) : bool := tuple_lt (wvalues f1) (wvalues f2).

(** A stable sort, best first: an element stays in front of the ones it
    preceded unless one of them is strictly better. *)
Fixpoint insert_best {A} (key : A → Fitness) (x : A) (l : list A) : list A :=
  match l with
  | [] => [x]
  | y :: l' =>
      if fitness_lt (key x) (key y) then y :: insert_best key x l' else x :: y :: l'
  end.

Definition sorted_best {A} (key : A → Fitness) (l : list A) : list A :=
  foldr (insert_best key) [] l.

(** Modelled from the spec: [tools.selBest(individuals, k, fit_attr)], whose
    file is not among the sources.  It selects the [k] individuals with the
    highest score, ties broken by the original order. *)
Definition selBest (individuals : list loc) (k : nat)
    (fit_attr : Individual → Fitness) : Py Rng (list loc) :=
  inds ← mapM read individuals;
  mret (take k (map fst (sorted_best (λ p, fit_attr (snd p)) (zip individuals inds)))).

(** [toolbox.register("select", tools.selBest, fit_attr="fitness_hv")] *)
Definition select (individuals : list loc) (k : nat) : Py Rng (list loc) :=
  selBest individuals k fitness_hv.

(** Drawing without replacement: the element at a random index leaves the
    list, [k] times or until the list is empty. *)
Fixpoint draw {A} (k : nat) (l : list A) (g : Rng) : list A * Rng :=
  match k, l with
  | S k', x :: _ =>
      let '(j, g') := randbelow (py toolbox) (length l) g in
      let i := j `mod` length l in
      let '(rest, g'') := draw k' (delete i l) g' in
      (default x (l !! i) :: rest, g'')
  | _, _ => ([], g)
  end.

(** Modelled from the spec: [tools.selRandom(individuals, k)], whose file is
    not among the sources.  Called with [k] the length of the population, it
    draws a random permutation of the population. *)
Definition selRandom (individuals : list loc) (k : nat) : Py Rng (list loc) :=
  with_rng (draw k individuals).

(** Modelled from the spec: [toolbox.clone], of [deap.base.Toolbox], whose
    file is not among the sources.  Individuals are created by
    initialization or by cloning: a clone is a new object with the content
    of the one cloned. *)
Definition clone (l : loc) : Py Rng loc :=
  ind ← read l; alloc ind.

(** [random.uniform(a, b)] *)
Definition random_uniform (a b : float) : Py Rng float :=
  r ← with_rng (random (py toolbox));
  mret (a + (b - a) * r)%float.

(** Modelled from the spec: [tools.Statistics.compile] with the functions
    registered in [main], [numpy.min] and [numpy.max] along axis 0 of the
    fitness values of the population. *)
Definition stats_compile (pop : list loc) : Py Rng StatRecord :=
  data ← mapM (λ l, ind ← read l; mret (values FitnessMin (fitness ind))) pop;
  arr ← lift (np_array data);
  mn ← lift (np_min_axis0 arr);
  mx ← lift (np_max_axis0 arr);
  mret (mkStatRecord mn mx).

(** ** [uniform] *)

(** A bound is a float or a sequence of floats. *)
Inductive Bound := BFloat (x : float) | BSeq (xs : list float).

(** [zip(low, up)] raises [TypeError] on a float, and so does
    [random.uniform] on a sequence, before it draws. *)
Definition uniform (low up : Bound) (size : option nat) : Py Rng (list float) :=
  match low, up with
  | BSeq ls, BSeq us => mapM (λ ab, random_uniform ab.1 ab.2) (zip ls us)
  | BFloat a, BFloat b =>
      match size with
      | Some n =>
          mapM (λ ab, random_uniform ab.1 ab.2) (zip (replicate n a) (replicate n b))
      | None => raise TypeError
      end
  | _, _ =>
      match size with
      | Some 0 => mret []
      | _ => raise TypeError
      end
  end.

(** [toolbox.register("attr_float", uniform, BOUND_LOW, BOUND_UP, NDIM)] *)
Definition attr_float : Py Rng (list float) :=
  uniform (BFloat BOUND_LOW) (BFloat BOUND_UP) (Some NDIM).

(** Modelled from the spec: [tools.initIterate] and [tools.initRepeat], whose
    file is not among the sources.  The initializer produces a population of
    [n] new individuals, each from one call to [attr_float], with every
    fitness invalid. *)
Definition individual : Py Rng loc :=
  g ← attr_float; alloc (new_Individual g).

Definition population (n : nat) : Py Rng (list loc) :=
  mapM (λ _, individual) (seq 0 n).

(** ** [main] *)

Definition NGEN : nat := 250.
Definition MU : nat := 100.
(** [CXPB = 0.9], the binary64 number nearest to it. *)
Definition CXPB : float := 0x1.ccccccccccccdp-1%float.

(** [l[::2]] *)
Fixpoint every_other {A} (l : list A) : list A :=
  match l with
  | [] => []
  | [x] => [x]
  | x :: _ :: l' => x :: every_other l'
  end.

(** Evaluate the individuals with an invalid fitness; the result is
    [len(invalid_ind)]. *)
Definition evaluate_invalid (pop : list loc) : Py Rng nat :=
  inds ← mapM read pop;
  let invalid_ind :=
    map fst (filter (λ p : loc * Individual, negb (valid (fitness p.2)))
               (zip pop inds)) in
  for_each (λ l,
      ind ← read l;
      write l (with_fitness (set_values FitnessMin (evaluate toolbox ind)) ind))
    invalid_ind;;
  mret (length invalid_ind).

(** [del ind.fitness.values] *)
Definition del_fitness_values (l : loc) : Py Rng unit :=
  ind ← read l; write l (with_fitness del_values ind).

(** The body of the loop over the pairs of offspring. *)
Definition vary_pair (p : loc * loc) : Py Rng unit :=
  r ← with_rng (random (py toolbox));
  (if (r <=? CXPB)%float then
     ind1 ← read p.1; ind2 ← read p.2;
     m ← with_rng (λ g, let '(a, b, g') := mate toolbox ind1 ind2 g in ((a, b), g'));
     write p.1 m.1;; write p.2 m.2
   else mret ());;
  (ind1 ← read p.1; m ← with_rng (mutate toolbox ind1); write p.1 m);;
  (ind2 ← read p.2; m ← with_rng (mutate toolbox ind2); write p.2 m);;
  del_fitness_values p.1;; del_fitness_values p.2.

(** The offspring before variation: [tools.selRandom(pop, len(pop))], each
    individual cloned. *)
Definition clone_offspring (pop : list loc) : Py Rng (list loc) :=
  offspring ← selRandom pop (length pop);
  mapM clone offspring.

(** Vary the population. *)
Definition vary (pop : list loc) : Py Rng (list loc) :=
  offspring ← clone_offspring pop;
  for_each vary_pair (zip (every_other offspring) (every_other (drop 1 offspring)));;
  mret offspring.

(** The [else] branch of the loop over the fronts: assign the hypervolume
    contribution to the individuals of the front that cannot move whole to
    the chosen population, and fill the population with the best of them. *)
Definition fill_chosen (mu : nat) (chosen front : list loc) : Py Rng (list loc) :=
  fitness_hv ← hypervolume_contrib front None;
  for_each (λ p,
      ind ← read p.1;
      write p.1 (with_fitness_hv (set_values FitnessHV [p.2]) ind))
    (zip front fitness_hv);;
  best ← select front (mu - length chosen);
  mret (chosen ++ best).

(** The loop over the fronts: a front moves to the chosen population while
    the population does not overflow; the first front that does not fit is
    the last one looked at. *)
Fixpoint select_fronts (mu : nat) (chosen : list loc) (fronts : list (list loc))
    : Py Rng (list loc) :=
  match fronts with
  | [] => mret chosen
  | front :: fronts' =>
      if length chosen + length front <=? mu then
        select_fronts mu (chosen ++ front) fronts'
      else fill_chosen mu chosen front
  end.

(** Select the next generation population. *)
Definition select_next (mu : nat) (pop offspring : list loc) : Py Rng (list loc) :=
  let pop := pop ++ offspring in
  h ← get_heap;
  log_call (CallSort pop (length pop));;
  let fronts := sort toolbox h pop (length pop) in
  select_fronts mu [] fronts.

Definition record_generation (gen evals : nat) (pop : list loc)
    (logbook : list LogEntry) : Py Rng (list LogEntry) :=
  record ← stats_compile pop;
  let e := mkLogEntry gen evals record in
  print (PrintStream e);;
  mret (logbook ++ [e]).

(** One turn of the generational loop. *)
Definition generation (mu gen : nat) (st : list loc * list LogEntry)
    : Py Rng (list loc * list LogEntry) :=
  offspring ← vary st.1;
  evals ← evaluate_invalid offspring;
  pop ← select_next mu st.1 offspring;
  logbook ← record_generation gen evals pop st.2;
  mret (pop, logbook).

Fixpoint generations (mu : nat) (gens : list nat) (st : list loc * list LogEntry)
    : Py Rng (list loc * list LogEntry) :=
  match gens with
  | [] => mret st
  | gen :: gens' => st' ← generation mu gen st; generations mu gens' st'
  end.

(** [random.seed(seed)]: without a seed the generator starts from a source
    of the system, here [entropy]. *)
Definition random_seed (entropy : Z) (s : option Z) : Py Rng unit :=
  with_rng (λ _, ((), seed (py toolbox) (default entropy s))).

(** [main] for [ngen] generations and a population of [mu]. *)
Definition evolve (ngen mu : nat) (entropy : Z) (s : option Z)
    : Py Rng (list loc * list LogEntry) :=
  random_seed entropy s;;
  pop ← population mu;
  evals ← evaluate_invalid pop;
  logbook ← record_generation 0 evals pop [];
  st ← generations mu (seq 1 (ngen - 1)) (pop, logbook);
  inds ← mapM read st.1;
  print (PrintFinal (final_hypervolume toolbox inds [11%float; 11%float]));;
  mret st.

Definition main : Z → option Z → Py Rng (list loc * list LogEntry) :=
  evolve NGEN MU.

End Program.

(** ** The hypervolume of the spec *)

(** The volume of the box spanned between a point and the reference
    point. *)
Definition box_volume (p ref : point) : float :=
  foldr PrimFloat.mul 1%float (zip_with PrimFloat.sub ref p).

(** The volume of a union of boxes by inclusion and exclusion: the box of
    the first point, plus the union of the boxes of the others, minus what
    the two share, which is the union of the boxes of the componentwise
    maxima.  [n] bounds the number of points. *)
Fixpoint union_volume (n : nat) (ps : list point) (ref : point) : float :=
  match n, ps with
  | S n', p :: ps' =>
      (box_volume p ref + union_volume n' ps' ref
       - union_volume n' (map (zip_with np_maximum p) ps') ref)%float
  | _, _ => 0%float
  end.

(** Modelled from the spec: [hv.hypervolume(pointset, ref)], whose file is not
    among the sources.  It is the exact measure of the union of the boxes
    spanned between each point and the reference point, lower being better
    on each objective; the empty set has measure 0. *)
Definition hypervolume_spec (ps : list point) (ref : point) : float :=
  union_volume (length ps) ps ref.

(** ** Notions of the statements *)

(** The tuples [ind.fitness.wvalues] of a front, when every location of the
    front denotes an object. *)
Definition fitness_rows (h : list Individual) (front : list loc) : option (list point) :=
  mapM (λ l, (λ ind, wvalues (fitness ind)) <$> h !! l) front.

(** The array [wobj] of [hypervolume_contrib]. *)
Definition negated (rows : list point) : list point :=
  map (map (λ x, x * (-1))%float) rows.

(** The world after more calls. *)
Definition add_calls {Rng} (cs : list Call) (w : World Rng) : World Rng :=
  mkWorld (heap w) (rng w) (calls w ++ cs) (stdout w).

(** The hypervolume contribution of a truncated front as it is stored:
    the score of an individual is the value of its [fitness_hv]. *)
Definition score (ind : Individual) : option float := head (wvalues (fitness_hv ind)).

(** The number of individuals of a list of fronts. *)
Definition total (fronts : list (list loc)) : nat := length (concat fronts).

(** The reference point of [hypervolume_contrib]: the one supplied, or the
    maximum of each objective over [wobj] plus 1. *)
Definition reference (kargs_ref : option point) (wobj : list point) : Result point :=
  match kargs_ref with
  | Some r => Ok r
  | None =>
      match np_max_axis0 wobj with
      | Ok m => Ok (map (λ x, x + 1)%float m)
      | Raise e => Raise e
      end
  end.

(** The point set without its [i]-th point, the others in their order. *)
Definition without (i : nat) (wobj : list point) : list point :=
  take i wobj ++ drop (S i) wobj.

(** What the spec asks of the contributions: for each index in order, the
    hypervolume of the set minus the hypervolume of the set without the
    point. *)
Definition contributions (hv : list point → point → float) (wobj : list point)
    (ref : point) : list float :=
  map (λ i, hv wobj ref - hv (without i wobj) ref)%float (seq 0 (length wobj)).

(** The calls of one run of [hypervolume_contrib]: one for the whole set,
    then one for each point left out. *)
Definition contrib_calls (wobj : list point) (ref : point) : list Call :=
  CallHypervolume wobj ref
  :: map (λ i, CallHypervolume (without i wobj) ref) (seq 0 (length wobj)).

(** The fronts that the loop of the selection admits whole, the chosen
    population holding [n] individuals, and the first front that does not
    fit, which the loop truncates. *)
Fixpoint admitted (mu n : nat) (fronts : list (list loc)) : list (list loc) :=
  match fronts with
  | [] => []
  | f :: fs => if n + length f <=? mu then f :: admitted mu (n + length f) fs else []
  end.

Fixpoint truncated (mu n : nat) (fronts : list (list loc)) : option (list loc) :=
  match fronts with
  | [] => None
  | f :: fs => if n + length f <=? mu then truncated mu (n + length f) fs else Some f
  end.

Definition is_hypervolume_call (c : Call) : Prop :=
  match c with
  | CallHypervolume _ _ => True
  | CallSort _ _ => False
  end.

(** A computation whose every run, failed or not, relates the world it
    starts from to the world it ends in. *)
Definition steps {Rng A} (R : World Rng → World Rng → Prop) (m : Py Rng A) : Prop :=
  ∀ w, R w (m w).2.

(** The heap is the same. *)
Definition same_heap {Rng} (w w' : World Rng) : Prop := heap w' = heap w.

(** The calls made are calls to the hypervolume routine. *)
Definition hypervolume_calls_only {Rng} (w w' : World Rng) : Prop :=
  ∃ cs, calls w' = calls w ++ cs ∧ Forall is_hypervolume_call cs.

(** The frame of the selection: no object is created, the variables and the
    primary fitness of every object are what they were, and an object
    outside of [S] is what it was. *)
Definition frame {Rng} (S : loc → Prop) (w w' : World Rng) : Prop :=
  length (heap w') = length (heap w) ∧
  ∀ l ind, heap w !! l = Some ind →
    ∃ ind', heap w' !! l = Some ind' ∧
      genome ind' = genome ind ∧ fitness ind' = fitness ind ∧
      (¬ S l → ind' = ind).

(** An element with a score that is a number, and the order of the
    scores: [no_worse key x y] when the score of [x] is at least the score
    of [y]. *)
Definition scored {A} (key : A → Fitness) (x : A) : Prop :=
  ∃ s, wvalues (key x) = [s] ∧ is_nan s = false.

Definition no_worse {A} (key : A → Fitness) (x y : A) : Prop :=
  ∃ sx sy, wvalues (key x) = [sx] ∧ wvalues (key y) = [sy] ∧ (sy <=? sx)%float = true.

(** The heap after the assignment of the contributions to the individuals
    of a front. *)
Definition assign (h : list Individual) (ps : list (loc * float)) : list Individual :=
  foldl (λ h p, match h !! p.1 with
                | Some ind => <[p.1 := with_fitness_hv (set_values FitnessHV [p.2]) ind]> h
                | None => h
                end) h ps.

Definition set_heap {Rng} (h : list Individual) (w : World Rng) : World Rng :=
  mkWorld h (rng w) (calls w) (stdout w).

(** A front that [hypervolume_contrib] can score: its individuals are
    distinct objects whose fitnesses hold tuples of one length, and no
    contribution is NaN. *)
Definition scorable {Rng} (tb : Toolbox Rng) (w : World Rng) (f : list loc) : Prop :=
  NoDup f ∧
  ∃ rows, fitness_rows (heap w) f = Some rows ∧ rectangular rows = true ∧
    ∀ ref, reference None (negated rows) = Ok ref →
      Forall (λ c, is_nan c = false) (contributions (hypervolume tb) (negated rows) ref).

(** The pairs of consecutive elements of a list, and their elements. *)
Fixpoint pairs_of {A} (l : list A) : list (A * A) :=
  match l with
  | x :: y :: l' => (x, y) :: pairs_of l'
  | _ => []
  end.

Fixpoint unpairs {A} (ps : list (A * A)) : list A :=
  match ps with
  | [] => []
  | p :: ps' => p.1 :: p.2 :: unpairs ps'
  end.

(** A computation that, from a heap of [N] objects and a world where [P]
    holds, does not fail, keeps [N] objects, changes no object outside of
    [S], and ends with a result and a world where [Q] holds. *)
Definition triple {Rng A} (N : nat) (S : loc → Prop) (P : World Rng → Prop)
    (m : Py Rng A) (Q : A → World Rng → Prop) : Prop :=
  ∀ w, length (heap w) = N → P w →
    ∃ a w', m w = (Ok a, w') ∧ length (heap w') = N ∧
      (∀ l, ¬ S l → heap w' !! l = heap w !! l) ∧ Q a w'.

(** The object at a location has an invalid primary fitness. *)
Definition invalid_at {Rng} (w : World Rng) (l : loc) : Prop :=
  ∃ ind, heap w !! l = Some ind ∧ valid (fitness ind) = false.

(** ** Notions of the further properties *)

(** The first [n] draws of [random.random()] and the generator after them. *)
Fixpoint draws {Rng} (rnd : Rng → float * Rng) (n : nat) (g : Rng) : list float * Rng :=
  match n with
  | 0 => ([], g)
  | S n' =>
      let '(r, g') := rnd g in
      let '(rs, g'') := draws rnd n' g' in
      (r :: rs, g'')
  end.

Definition set_rng {Rng} (g : Rng) (w : World Rng) : World Rng :=
  mkWorld (heap w) g (calls w) (stdout w).

(** A number of the interval [0, 1). *)
Definition unit_interval (x : float) : Prop :=
  (0 <=? x)%float = true ∧ (x <? 1)%float = true.

(** The fitness of the object at a location is invalid. *)
Definition is_invalid (h : list Individual) (l : loc) : bool :=
  match h !! l with
  | Some ind => negb (valid (fitness ind))
  | None => false
  end.

(** What an evaluation may change: the primary fitness of the objects at
    the locations of [S]. *)
Definition evaluation_frame {Rng} (S : loc → Prop) (w w' : World Rng) : Prop :=
  length (heap w') = length (heap w) ∧ rng w' = rng w ∧ calls w' = calls w ∧
  stdout w' = stdout w ∧
  ∀ l ind, heap w !! l = Some ind →
    ∃ ind', heap w' !! l = Some ind' ∧
      genome ind' = genome ind ∧ fitness_hv ind' = fitness_hv ind ∧
      (¬ S l → ind' = ind).

(** A part of the world is what it was. *)
Definition unchanged {Rng B} (field : World Rng → B) (w w' : World Rng) : Prop :=
  field w' = field w.

(** ** Binary64 numbers *)

(** The mantissa of 1. *)
Definition two52 : positive := 4503599627370496%positive.

(** A key of three integers whose lexicographic order is the order of the
    numbers. *)
Definition SFkey (x : spec_float) : Z * Z * Z :=
  match x with
  | S754_nan => (0, 0, 0)%Z
  | S754_zero _ => (0, 0, 0)%Z
  | S754_infinity s => (if s then -2 else 2, 0, 0)%Z
  | S754_finite s m e => if s then (-1, - e, - Z.pos m)%Z else (1, e, Z.pos m)%Z
  end.

Definition key_le (a b : Z * Z * Z) : Prop :=
  (a.1.1 < b.1.1 ∨
   (a.1.1 = b.1.1 ∧ (a.1.2 < b.1.2 ∨ (a.1.2 = b.1.2 ∧ a.2 ≤ b.2))))%Z.

(** ** A toolbox for examples *)

(** A generator that counts its draws and turns around four numbers. *)
Definition counting : PyRandom nat :=
  {| seed z := Z.to_nat z;
     random g :=
       (match g `mod` 4 with
        | 0 => 0.125 | 1 => 0.375 | 2 => 0.625 | _ => 0.875
        end%float, S g);
     randbelow n g := (g, S g) |}.

(** The objectives are the first two variables, the operators change
    nothing, every pool is one front, and the hypervolume is that of the
    spec. *)
Definition example_toolbox : Toolbox nat :=
  {| py := counting;
     evaluate ind := take 2 (genome ind);
     mate a b g := (a, b, g);
     mutate a g := (a, g);
     sort h pool k := [pool];
     hypervolume := hypervolume_spec;
     final_hypervolume inds ref :=
       hypervolume_spec (negated (map (λ ind, wvalues (fitness ind)) inds)) ref |}.

(** An individual whose objectives have been evaluated to [vs]. *)
Definition evaluated (vs : list float) : Individual :=
  with_fitness (set_values FitnessMin vs) (new_Individual vs).

Definition world_of (h : list Individual) : World nat := mkWorld h 0 [] [].

(** The front of the scenario of the spec: (1,5), (2,3), (4,1). *)
Definition scenario : World nat :=
  world_of [evaluated [1; 5]; evaluated [2; 3]; evaluated [4; 1]]%float.

(** The toolbox of the examples with an evaluator that returns two
    objectives for every individual, as [benchmarks.zdt1] does. *)
Definition two_objectives : Toolbox nat :=
  {| py := counting;
     evaluate ind := [default 0%float (genome ind !! 0); default 1%float (genome ind !! 1)];
     mate a b g := (a, b, g);
     mutate a g := (a, g);
     sort h pool k := [pool];
     hypervolume := hypervolume_spec;
     final_hypervolume inds ref :=
       hypervolume_spec (negated (map (λ ind, wvalues (fitness ind)) inds)) ref |}.

(** A population before its evaluation: the first and the last individual
    have no fitness yet. *)
Definition unevaluated : World nat :=
  world_of [new_Individual [1; 5]; evaluated [2; 3]; new_Individual [4; 1]]%float.

(** * Properties *)

(** ** Binary64 arithmetic *)

Lemma mul_two52 (m : positive) : (m * two52)%positive = Pos.iter xO m 52%positive.
Proof.
  unfold two52.
  change 4503599627370496%positive with (Pos.iter xO 1%positive 52%positive).
  cbn [Pos.iter]. repeat rewrite Pos.mul_xO_r. now rewrite Pos.mul_1_r.
Qed.

Lemma shr_52 (m : positive) :
  SpecFloat.iter_pos shr_1 52 (Build_shr_record (Zpos (Pos.iter xO m 52%positive)) false false)
  = Build_shr_record (Zpos m) false false.
Proof. reflexivity. Qed.

Lemma digits_52 (m : positive) :
  digits2_pos (Pos.iter xO m 52%positive) = (digits2_pos m + 52)%positive.
Proof. cbn [Pos.iter digits2_pos]. lia. Qed.

(** Multiplying a binary64 number by 1 or -1 is exact: the mantissa comes
    back after 52 shifts, with nothing to round. *)
Lemma SFmul_unit (s : bool) (m : positive) (e : Z) (sg : bool) :
  valid_binary (S754_finite s m e) = true →
  SFmul prec emax (S754_finite s m e) (S754_finite sg two52 (-52))
  = S754_finite (xorb s sg) m e.
Proof.
  cbn [SpecFloat.valid_binary]. unfold bounded, canonical_mantissa.
  intros [Hc Hb]%andb_true_iff. apply Z.eqb_eq in Hc.
  cbn [SFmul]. unfold binary_round_aux, shr_fexp.
  rewrite mul_two52. cbn [Zdigits2 shr_record_of_loc]. rewrite digits_52.
  replace (Z.pos (digits2_pos m + 52) + (e + -52))%Z
    with (Z.pos (digits2_pos m) + e)%Z by lia.
  rewrite Hc. replace (e - (e + -52))%Z with 52%Z by lia.
  cbn [shr]. rewrite shr_52.
  cbn [shr_m loc_of_shr_record round_nearest_even Zdigits2 shr_record_of_loc].
  replace (e + -52 + 52)%Z with e by lia.
  rewrite Hc, Z.sub_diag. cbn [shr shr_m]. now rewrite Hb.
Qed.

Lemma float_mul_1_r (x : float) : (x * 1)%float = x.
Proof.
  apply Prim2SF_inj. rewrite mul_spec.
  change (Prim2SF 1) with (S754_finite false two52 (-52)).
  pose proof (Prim2SF_valid x) as Hv. unfold SF64mul.
  destruct (Prim2SF x) as [[]|[]| |s m e]; try reflexivity.
  rewrite SFmul_unit by exact Hv. now destruct s.
Qed.

Lemma float_mul_m1_r (x : float) : (x * (-1))%float = (- x)%float.
Proof.
  apply Prim2SF_inj. rewrite mul_spec, opp_spec.
  change (Prim2SF (-1)) with (S754_finite true two52 (-52)).
  pose proof (Prim2SF_valid x) as Hv. unfold SF64mul.
  destruct (Prim2SF x) as [[]|[]| |s m e]; try reflexivity.
  rewrite SFmul_unit by exact Hv. now destruct s.
Qed.

Lemma float_opp_involutive (x : float) : (- - x)%float = x.
Proof.
  apply Prim2SF_inj. rewrite !opp_spec.
  destruct (Prim2SF x) as [[]|[]| |[] m e]; reflexivity.
Qed.

Lemma float_mul_m1_m1 (x : float) : (x * (-1) * (-1))%float = x.
Proof. now rewrite !float_mul_m1_r, float_opp_involutive. Qed.


Lemma SFleb_total (x y : spec_float) :
  x ≠ S754_nan → y ≠ S754_nan → SFltb x y = false → SFleb y x = true.
Proof.
  unfold SFltb, SFleb.
  destruct x as [[]|[]| |[] m e], y as [[]|[]| |[] m' e']; intros Hx Hy;
    try congruence; cbn; try discriminate; try reflexivity.
  all: rewrite (Z.compare_antisym e e');
    change (Pos.compare_cont Eq m' m) with (Pos.compare_cont (CompOpp Eq) m' m);
    rewrite <- (Pos.compare_cont_antisym m m' Eq);
    destruct (e ?= e')%Z; cbn; try discriminate; try reflexivity;
    destruct (Pos.compare_cont Eq m m'); cbn; try discriminate; reflexivity.
Qed.

Lemma SFleb_key (x y : spec_float) :
  x ≠ S754_nan → y ≠ S754_nan →
  SFleb x y = true ↔ key_le (SFkey x) (SFkey y).
Proof.
  unfold SFleb, key_le.
  destruct x as [[]|[]| |[] m e], y as [[]|[]| |[] m' e']; intros Hx Hy;
    try congruence; cbn;
    try (split; [intros _; lia | reflexivity]);
    try (split; [discriminate | lia]).
  all: change (Pos.compare_cont Eq m m') with (Pos.compare m m');
    destruct (Z.compare_spec e e'); cbn;
    try (split; [intros _; lia | reflexivity]);
    try (split; [discriminate | lia]);
    destruct (Pos.compare_spec m m'); cbn;
    try (split; [intros _; lia | reflexivity]);
    try (split; [discriminate | lia]).
Qed.

Lemma SFleb_trans (x y z : spec_float) :
  x ≠ S754_nan → y ≠ S754_nan → z ≠ S754_nan →
  SFleb x y = true → SFleb y z = true → SFleb x z = true.
Proof.
  intros Hx Hy Hz H1 H2.
  apply (proj1 (SFleb_key x y Hx Hy)) in H1.
  apply (proj1 (SFleb_key y z Hy Hz)) in H2.
  apply (proj2 (SFleb_key x z Hx Hz)). unfold key_le in *. lia.
Qed.

Lemma Prim2SF_nan (x : float) : is_nan x = false → Prim2SF x ≠ S754_nan.
Proof.
  unfold is_nan. rewrite FloatAxioms.eqb_spec. unfold SFeqb.
  destruct (Prim2SF x); cbn; congruence.
Qed.

Lemma float_leb_total (x y : float) :
  is_nan x = false → is_nan y = false → (x <? y)%float = false → (y <=? x)%float = true.
Proof.
  intros Hx Hy. rewrite FloatAxioms.ltb_spec, FloatAxioms.leb_spec.
  apply SFleb_total; now apply Prim2SF_nan.
Qed.

Lemma float_leb_trans (x y z : float) :
  is_nan x = false → is_nan y = false → is_nan z = false →
  (x <=? y)%float = true → (y <=? z)%float = true → (x <=? z)%float = true.
Proof.
  intros Hx Hy Hz. rewrite !FloatAxioms.leb_spec.
  apply SFleb_trans; now apply Prim2SF_nan.
Qed.

Lemma float_eqb_ltb (x y : float) : (x =? y)%float = true → (x <? y)%float = false.
Proof.
  rewrite FloatAxioms.eqb_spec, FloatAxioms.ltb_spec. unfold SFeqb, SFltb.
  now destruct (SFcompare (Prim2SF x) (Prim2SF y)) as [[]|].
Qed.

Lemma float_ltb_leb (x y : float) : (x <? y)%float = true → (x <=? y)%float = true.
Proof.
  rewrite FloatAxioms.ltb_spec, FloatAxioms.leb_spec. unfold SFleb, SFltb.
  now destruct (SFcompare (Prim2SF x) (Prim2SF y)) as [[]|].
Qed.

(** ** The stable sort, best first *)

Section Sorting.
Context {A : Type} (key : A → Fitness).

Lemma insert_best_perm (x : A) (l : list A) : insert_best key x l ≡ₚ x :: l.
Proof.
  induction l as [|y l IH]; cbn; [reflexivity|].
  destruct (fitness_lt (key x) (key y)); [|reflexivity].
  rewrite IH. apply Permutation_swap.
Qed.

Lemma sorted_best_perm (l : list A) : sorted_best key l ≡ₚ l.
Proof.
  induction l as [|x l IH]; cbn; [reflexivity|].
  fold (sorted_best key l). now rewrite insert_best_perm, IH.
Qed.

Lemma fitness_lt_false (x y : A) :
  scored key x → scored key y →
  fitness_lt (key x) (key y) = false → no_worse key x y.
Proof.
  intros (sx & Hx & Nx) (sy & Hy & Ny) H. exists sx, sy.
  split; [assumption|]. split; [assumption|].
  unfold fitness_lt in H. rewrite Hx, Hy in H. cbn in H.
  apply float_leb_total; [assumption..|].
  destruct (sx =? sy)%float eqn:E; [now apply float_eqb_ltb|assumption].
Qed.

Lemma fitness_lt_true (x y : A) :
  scored key x → scored key y →
  fitness_lt (key x) (key y) = true → no_worse key y x.
Proof.
  intros (sx & Hx & Nx) (sy & Hy & Ny) H. exists sy, sx.
  split; [assumption|]. split; [assumption|].
  unfold fitness_lt in H. rewrite Hx, Hy in H. cbn in H.
  destruct (sx =? sy)%float; [discriminate|]. now apply float_ltb_leb.
Qed.

Lemma no_worse_trans (x y z : A) :
  scored key x → scored key y → scored key z →
  no_worse key x y → no_worse key y z → no_worse key x z.
Proof.
  intros (s1 & H1 & N1) (s2 & H2 & N2) (s3 & H3 & N3)
    (sx & sy & Hx & Hy & Hxy) (sy' & sz & Hy' & Hz & Hyz).
  assert (sx = s1) as -> by congruence. assert (sy = s2) as -> by congruence.
  assert (sy' = s2) as -> by congruence. assert (sz = s3) as -> by congruence.
  exists s1, s3. split; [assumption|]. split; [assumption|].
  now apply (float_leb_trans s3 s2 s1).
Qed.

Lemma insert_best_sorted (x : A) (l : list A) :
  scored key x → Forall (scored key) l →
  StronglySorted (no_worse key) l →
  StronglySorted (no_worse key) (insert_best key x l).
Proof.
  intros Hx Hl Hs. induction Hs as [|y l Hs IH Hy]; cbn.
  - repeat constructor.
  - apply Forall_cons in Hl as [Sy Sl].
    destruct (fitness_lt (key x) (key y)) eqn:E.
    + constructor; [now apply IH|].
      rewrite (insert_best_perm x l). constructor; [|assumption].
      now apply fitness_lt_true.
    + pose proof (fitness_lt_false x y Hx Sy E) as Hxy.
      constructor; [now constructor|]. constructor; [assumption|].
      rewrite Forall_forall in Hy, Sl |- *. intros z Hz.
      apply (no_worse_trans x y z); auto.
Qed.

Lemma sorted_best_sorted (l : list A) :
  Forall (scored key) l → StronglySorted (no_worse key) (sorted_best key l).
Proof.
  induction 1 as [|x l Hx Hl IH]; cbn; [constructor|].
  fold (sorted_best key l). apply insert_best_sorted; [assumption| |assumption].
  now rewrite sorted_best_perm.
Qed.

(** The best [k] are no worse than the others. *)
Lemma sorted_best_take_drop (l : list A) (k : nat) (x y : A) :
  Forall (scored key) l →
  x ∈ take k (sorted_best key l) → y ∈ drop k (sorted_best key l) →
  no_worse key x y.
Proof.
  intros Hl Hx Hy. pose proof (sorted_best_sorted l Hl) as Hs.
  rewrite <- (take_drop k (sorted_best key l)) in Hs.
  eapply StronglySorted_app_1_elem_of; eassumption.
Qed.

End Sorting.

(** ** The state monad *)

Section Properties.
Context {Rng : Type} (toolbox : Toolbox Rng).
Implicit Types (w : World Rng) (front : list loc) (h : list Individual).

Lemma bind_ok {A B} (m : Py Rng A) (f : A → Py Rng B) w a w' :
  m w = (Ok a, w') → (m ≫= f) w = f a w'.
Proof. intros H. unfold mbind, Py_bind. now rewrite H. Qed.

Lemma bind_raise {A B} (m : Py Rng A) (f : A → Py Rng B) w e w' :
  m w = (Raise e, w') → (m ≫= f) w = (Raise e, w').
Proof. intros H. unfold mbind, Py_bind. now rewrite H. Qed.

Lemma ret_run {A} (a : A) w : (mret a : Py Rng A) w = (Ok a, w).
Proof. reflexivity. Qed.

Lemma read_ok l ind w : heap w !! l = Some ind → read l w = (Ok ind, w).
Proof. intros H. unfold read. now rewrite H. Qed.

Lemma read_none l w : heap w !! l = None → read l w = (Raise NoObject, w).
Proof. intros H. unfold read. now rewrite H. Qed.

Lemma add_calls_nil w : add_calls [] w = w.
Proof. destruct w. unfold add_calls. cbn. now rewrite app_nil_r. Qed.

Lemma add_calls_app cs cs' w : add_calls cs' (add_calls cs w) = add_calls (cs ++ cs') w.
Proof. unfold add_calls. cbn. now rewrite app_assoc. Qed.

Lemma mapM_cons_run {A B} (f : A → Py Rng B) x l w :
  mapM f (x :: l) w =
  match f x w with
  | (Ok y, w') =>
      match mapM f l w' with
      | (Ok k, w'') => (Ok (y :: k), w'')
      | (Raise e, w'') => (Raise e, w'')
      end
  | (Raise e, w') => (Raise e, w')
  end.
Proof.
  cbn. unfold mbind, Py_bind. destruct (f x w) as [[y|e] w']; [|reflexivity].
  now destruct (mapM f l w') as [[k|e] w''].
Qed.

Lemma for_each_cons_run {A} (f : A → Py Rng unit) x l w :
  for_each f (x :: l) w =
  match f x w with
  | (Ok _, w') => for_each f l w'
  | (Raise e, w') => (Raise e, w')
  end.
Proof. reflexivity. Qed.

(** ** [hypervolume_contrib] *)

Lemma read_rows w front rows :
  fitness_rows (heap w) front = Some rows →
  mapM (λ l, ind ← read l; mret (wvalues (fitness ind))) front w = (Ok rows, w).
Proof.
  revert rows. induction front as [|l front IH]; intros rows H.
  - cbn in H. injection H as <-. reflexivity.
  - unfold fitness_rows in H. cbn in H.
    destruct (heap w !! l) as [ind|] eqn:Hl; [|discriminate]. cbn in H.
    fold (fitness_rows (heap w) front) in H.
    destruct (fitness_rows (heap w) front) as [rows'|]; [|discriminate].
    cbn in H. injection H as <-.
    rewrite mapM_cons_run, (bind_ok _ _ _ _ _ (read_ok _ _ _ Hl)), ret_run.
    rewrite (IH rows' eq_refl). reflexivity.
Qed.

Lemma fitness_rows_length h front rows :
  fitness_rows h front = Some rows → length rows = length front.
Proof.
  intros H. apply mapM_Some_1 in H. symmetry. eapply Forall2_length, H.
Qed.

Lemma hv_hypervolume_run pointset ref w :
  hv_hypervolume toolbox pointset ref w =
  (Ok (hypervolume toolbox pointset ref), add_calls [CallHypervolume pointset ref] w).
Proof. reflexivity. Qed.

Lemma contributions_run wobj ref total_hv (js : list nat) w :
  mapM (contribution toolbox wobj ref total_hv) js w =
  (Ok (map (λ i, total_hv - hypervolume toolbox (without i wobj) ref)%float js),
   add_calls (map (λ i, CallHypervolume (without i wobj) ref) js) w).
Proof.
  revert w. induction js as [|j js IH]; intros w.
  - cbn. now rewrite add_calls_nil.
  - rewrite mapM_cons_run.
    change (contribution toolbox wobj ref total_hv j w) with
      (Ok (total_hv - hypervolume toolbox (without j wobj) ref)%float,
       add_calls [CallHypervolume (without j wobj) ref] w).
    cbv beta iota. rewrite IH. cbn [map]. now rewrite add_calls_app.
Qed.

Lemma hypervolume_contrib_run w front rows kargs_ref ref :
  fitness_rows (heap w) front = Some rows →
  rectangular rows = true →
  reference kargs_ref (negated rows) = Ok ref →
  hypervolume_contrib toolbox front kargs_ref w =
  (Ok (contributions (hypervolume toolbox) (negated rows) ref),
   add_calls (contrib_calls (negated rows) ref) w).
Proof.
  intros Hrows Hrect Href. unfold hypervolume_contrib.
  rewrite (bind_ok _ _ _ _ _ (read_rows _ _ _ Hrows)).
  unfold np_array. rewrite Hrect.
  unfold mbind at 1, Py_bind, lift. fold (negated rows).
  assert (Hlen : length front = length (negated rows)).
  { unfold negated. rewrite length_map. symmetry. eapply fitness_rows_length, Hrows. }
  rewrite Hlen.
  assert (Hr : (match kargs_ref with
                | Some r => mret r
                | None => m ← lift (np_max_axis0 (negated rows));
                          mret (map (λ x, x + 1)%float m)
                end : Py Rng point) w = (Ok ref, w)).
  { unfold reference in Href. destruct kargs_ref as [r|].
    - now injection Href as ->.
    - unfold mbind, Py_bind, lift.
      destruct (np_max_axis0 (negated rows)); [|discriminate].
      now injection Href as <-. }
  rewrite (bind_ok _ _ _ _ _ Hr).
  rewrite (bind_ok _ _ _ _ _ (hv_hypervolume_run _ _ _)).
  rewrite contributions_run. now rewrite add_calls_app.
Qed.

(** ** Relations between the worlds of a run *)

Section Steps.
Context (R : World Rng → World Rng → Prop) `{!PreOrder R}.

Lemma steps_ret {A} (a : A) : steps R (mret a : Py Rng A).
Proof. intros w. reflexivity. Qed.

Lemma steps_lift {A} (r : Result A) : steps R (lift r : Py Rng A).
Proof. intros w. reflexivity. Qed.

Lemma steps_read l : steps R (read l : Py Rng Individual).
Proof. intros w. unfold read. destruct (heap w !! l); reflexivity. Qed.

Lemma steps_bind {A B} (m : Py Rng A) (f : A → Py Rng B) :
  steps R m → (∀ a, steps R (f a)) → steps R (m ≫= f).
Proof.
  intros Hm Hf w. unfold mbind, Py_bind. specialize (Hm w).
  destruct (m w) as [[a|e] w']; cbn in *; [|assumption].
  etransitivity; [exact Hm|apply Hf].
Qed.

Lemma steps_mapM_in {A B} (f : A → Py Rng B) (l : list A) :
  (∀ x, x ∈ l → steps R (f x)) → steps R (mapM f l).
Proof.
  induction l as [|x l IH]; intros Hf w.
  - reflexivity.
  - rewrite mapM_cons_run.
    pose proof (Hf x (list_elem_of_here _ _) w) as Hx.
    destruct (f x w) as [[y|e] w']; cbn in *; [|assumption].
    assert (Hl : steps R (mapM f l)).
    { apply IH. intros x' Hx'. apply Hf. now apply list_elem_of_further. }
    specialize (Hl w').
    destruct (mapM f l w') as [[k|e] w'']; cbn in *; etransitivity; eassumption.
Qed.

Lemma steps_mapM {A B} (f : A → Py Rng B) (l : list A) :
  (∀ x, steps R (f x)) → steps R (mapM f l).
Proof. intros Hf. apply steps_mapM_in. intros x _. apply Hf. Qed.

Lemma steps_for_each_in {A} (f : A → Py Rng unit) (l : list A) :
  (∀ x, x ∈ l → steps R (f x)) → steps R (for_each f l).
Proof.
  induction l as [|x l IH]; intros Hf w.
  - reflexivity.
  - rewrite for_each_cons_run.
    pose proof (Hf x (list_elem_of_here _ _) w) as Hx.
    destruct (f x w) as [[y|e] w']; cbn in *; [|assumption].
    etransitivity; [exact Hx|]. apply IH.
    intros x' Hx'. apply Hf. now apply list_elem_of_further.
Qed.

End Steps.

Lemma steps_mono {A} (R R' : World Rng → World Rng → Prop) (m : Py Rng A) :
  (∀ w w', R w w' → R' w w') → steps R m → steps R' m.
Proof. intros H Hm w. apply H, Hm. Qed.

#[local] Instance same_heap_preorder : PreOrder (@same_heap Rng).
Proof.
  split; [intros w; reflexivity|].
  intros w1 w2 w3 H1 H2. unfold same_heap in *. congruence.
Qed.

#[local] Instance hypervolume_calls_only_preorder :
  PreOrder (@hypervolume_calls_only Rng).
Proof.
  split.
  - intros w. exists []. now rewrite app_nil_r.
  - intros w1 w2 w3 (cs & H1 & F1) (cs' & H2 & F2). exists (cs ++ cs'). split.
    + now rewrite H2, H1, app_assoc.
    + now apply Forall_app.
Qed.

#[local] Instance frame_preorder (S : loc → Prop) : PreOrder (@frame Rng S).
Proof.
  split.
  - intros w. split; [reflexivity|]. intros l ind H. now exists ind.
  - intros w1 w2 w3 [L1 H1] [L2 H2]. split; [congruence|].
    intros l ind Hl. destruct (H1 l ind Hl) as (ind' & Hl' & Hg & Hf & Hs).
    destruct (H2 l ind' Hl') as (ind'' & Hl'' & Hg' & Hf' & Hs').
    exists ind''. repeat split; [assumption|congruence|congruence|].
    intros Hn. rewrite (Hs' Hn). now apply Hs.
Qed.

Lemma same_heap_frame (S : loc → Prop) w w' : same_heap w w' → frame S w w'.
Proof.
  unfold same_heap. intros H. split; [now rewrite H|].
  intros l ind Hl. exists ind. now rewrite H.
Qed.

(** What [hypervolume_contrib] and the selection of the best do to the
    world. *)
Lemma hv_hypervolume_heap pointset ref :
  steps same_heap (hv_hypervolume toolbox pointset ref).
Proof. intros w. reflexivity. Qed.

Lemma hv_hypervolume_calls pointset ref :
  steps hypervolume_calls_only (hv_hypervolume toolbox pointset ref).
Proof.
  intros w. exists [CallHypervolume pointset ref]. split; [reflexivity|].
  now constructor.
Qed.

Lemma hypervolume_contrib_steps (R : World Rng → World Rng → Prop) `{!PreOrder R}
    front kargs_ref :
  (∀ pointset ref, steps R (hv_hypervolume toolbox pointset ref)) →
  steps R (hypervolume_contrib toolbox front kargs_ref).
Proof.
  intros Hhv. unfold hypervolume_contrib.
  apply steps_bind; [assumption| |intros rows].
  { apply steps_mapM; [assumption|]. intros l.
    apply steps_bind; [assumption|now apply steps_read|].
    intros ind. now apply steps_ret. }
  apply steps_bind; [assumption|now apply steps_lift|intros arr].
  apply steps_bind; [assumption| |intros ref].
  { destruct kargs_ref; [now apply steps_ret|].
    apply steps_bind; [assumption|now apply steps_lift|].
    intros m. now apply steps_ret. }
  apply steps_bind; [assumption|apply Hhv|intros total_hv].
  apply steps_mapM; [assumption|]. intros i. unfold contribution.
  apply steps_bind; [assumption|apply Hhv|]. intros hv. now apply steps_ret.
Qed.

Lemma selBest_steps (R : World Rng → World Rng → Prop) `{!PreOrder R}
    individuals k fit_attr :
  steps R (selBest individuals k fit_attr : Py Rng (list loc)).
Proof.
  unfold selBest. apply steps_bind; [assumption| |intros inds; now apply steps_ret].
  apply steps_mapM; [assumption|]. intros l. now apply steps_read.
Qed.

(** ** The loop over the fronts *)

Lemma total_cons (f : list loc) (fs : list (list loc)) :
  total (f :: fs) = length f + total fs.
Proof. unfold total. cbn. now rewrite length_app. Qed.

Lemma select_fronts_all_fit mu chosen fronts w :
  length chosen + total fronts ≤ mu →
  select_fronts toolbox mu chosen fronts w = (Ok (chosen ++ concat fronts), w).
Proof.
  revert chosen. induction fronts as [|f fs IH]; intros chosen H.
  - cbn. now rewrite app_nil_r.
  - rewrite total_cons in H. cbn [select_fronts concat].
    destruct (Nat.leb_spec (length chosen + length f) mu) as [_|Hlt]; [|lia].
    rewrite IH by (rewrite length_app; lia). now rewrite app_assoc.
Qed.

Lemma write_calls l ind : steps hypervolume_calls_only (write l ind : Py Rng unit).
Proof. intros w. exists []. cbn. now rewrite app_nil_r. Qed.

Lemma select_fronts_calls mu chosen fronts :
  steps hypervolume_calls_only (select_fronts toolbox mu chosen fronts).
Proof.
  revert chosen. induction fronts as [|f fs IH]; intros chosen.
  - apply steps_ret; apply _.
  - cbn [select_fronts]. destruct (length chosen + length f <=? mu); [apply IH|].
    unfold fill_chosen.
    apply steps_bind; [apply _| |intros cs].
    { apply hypervolume_contrib_steps; [apply _|]. apply hv_hypervolume_calls. }
    apply steps_bind; [apply _| |intros _].
    { apply steps_for_each_in; [apply _|]. intros p _.
      apply steps_bind; [apply _|apply steps_read; apply _|].
      intros ind. apply write_calls. }
    apply steps_bind; [apply _|apply selBest_steps; apply _|].
    intros best. apply steps_ret; apply _.
Qed.

Lemma assign_frame (S : loc → Prop) l f :
  S l → steps (frame S) (ind ← read l; write l (with_fitness_hv f ind) : Py Rng unit).
Proof.
  intros Hl w. destruct (heap w !! l) as [ind|] eqn:E.
  2: { rewrite (bind_raise _ _ _ _ _ (read_none _ _ E)). reflexivity. }
  rewrite (bind_ok _ _ _ _ _ (read_ok _ _ _ E)). unfold write, frame. cbn [snd heap].
  split; [now rewrite length_insert|].
  intros l0 ind0 H0. destruct (decide (l0 = l)) as [->|Hne].
  - rewrite E in H0. injection H0 as <-. eexists. split.
    + apply list_lookup_insert_eq. eapply lookup_lt_Some, E.
    + cbn. tauto.
  - exists ind0. rewrite list_lookup_insert_ne by congruence. tauto.
Qed.

Lemma select_fronts_frame mu chosen fronts :
  steps (frame (λ l, ∃ f, truncated mu (length chosen) fronts = Some f ∧ l ∈ f))
    (select_fronts toolbox mu chosen fronts).
Proof.
  revert chosen. induction fronts as [|f fs IH]; intros chosen.
  - apply steps_ret; apply _.
  - cbn [select_fronts truncated].
    destruct (length chosen + length f <=? mu).
    { specialize (IH (chosen ++ f)). now rewrite length_app in IH. }
    unfold fill_chosen.
    apply steps_bind; [apply _| |intros cs].
    { eapply steps_mono; [apply same_heap_frame|].
      apply hypervolume_contrib_steps; [apply _|]. apply hv_hypervolume_heap. }
    apply steps_bind; [apply _| |intros _].
    { apply steps_for_each_in; [apply _|]. intros [l c] Hp.
      apply assign_frame. exists f. split; [reflexivity|].
      apply elem_of_zip_l in Hp. exact Hp. }
    apply steps_bind; [apply _|apply selBest_steps; apply _|].
    intros best. apply steps_ret; apply _.
Qed.

Lemma select_next_calls mu pop offspring w :
  ∃ cs, calls (select_next toolbox mu pop offspring w).2
        = calls w ++ CallSort (pop ++ offspring) (length (pop ++ offspring)) :: cs
      ∧ Forall is_hypervolume_call cs.
Proof.
  unfold select_next.
  set (pool := pop ++ offspring).
  change ((get_heap ≫= λ h, log_call (CallSort pool (length pool));;
            select_fronts toolbox mu [] (sort toolbox h pool (length pool))) w)
    with (select_fronts toolbox mu [] (sort toolbox (heap w) pool (length pool))
            (add_calls [CallSort pool (length pool)] w)).
  destruct (select_fronts_calls mu [] (sort toolbox (heap w) pool (length pool))
              (add_calls [CallSort pool (length pool)] w)) as (cs & H & F).
  exists cs. split; [|assumption]. rewrite H. cbn. now rewrite <- app_assoc.
Qed.

Lemma without_length (i : nat) (wobj : list point) :
  i < length wobj → length (without i wobj) = length wobj - 1.
Proof.
  intros H. unfold without. rewrite length_app, length_take, length_drop. lia.
Qed.

Lemma elem_of_concat {A} (x : A) (ls : list (list A)) :
  x ∈ concat ls ↔ ∃ l, l ∈ ls ∧ x ∈ l.
Proof.
  induction ls as [|l ls IH]; cbn.
  - split; [intros H%elem_of_nil; contradiction|].
    intros (l & H%elem_of_nil & _). contradiction.
  - rewrite elem_of_app, IH. split.
    + intros [H|(l' & H1 & H2)].
      * exists l. split; [apply list_elem_of_here|assumption].
      * exists l'. split; [now apply list_elem_of_further|assumption].
    + intros (l' & H1 & H2). apply elem_of_cons in H1 as [->|H1]; [now left|].
      right. now exists l'.
Qed.

(** The fronts split into the fronts admitted whole, the truncated front
    and the fronts left out. *)
Lemma fronts_split mu n fronts f :
  truncated mu n fronts = Some f →
  ∃ rest, fronts = admitted mu n fronts ++ f :: rest.
Proof.
  revert n. induction fronts as [|g gs IH]; intros n H; [discriminate|].
  cbn in *. destruct (n + length g <=? mu).
  - destruct (IH _ H) as [rest Hr]. exists rest. cbn. now f_equal.
  - injection H as ->. now exists gs.
Qed.

Lemma admitted_truncated_disjoint mu n fronts t f l :
  NoDup (concat fronts) → truncated mu n fronts = Some t →
  f ∈ admitted mu n fronts → l ∈ f → l ∈ t → False.
Proof.
  intros Hnd Ht Hf Hl Hlt. destruct (fronts_split _ _ _ _ Ht) as [rest Hr].
  rewrite Hr, concat_app in Hnd. apply NoDup_app in Hnd as (_ & Hd & _).
  apply (Hd l).
  - apply elem_of_concat. now exists f.
  - cbn. apply elem_of_app. now left.
Qed.

(** ** The claims on the selection and on the contributions *)

(** C1, amended: when the fronts hold fewer individuals than the target
    size, the selection raises no error; it admits every front whole and
    returns the individuals of all the fronts, a population shorter than the
    target size, in a world that it leaves as it was. *)
Theorem select_fronts_insufficient mu fronts w :
  total fronts < mu →
  select_fronts toolbox mu [] fronts w = (Ok (concat fronts), w)
  ∧ length (concat fronts) < mu.
Proof.
  intros H. split; [|exact H].
  apply (select_fronts_all_fit mu [] fronts w). cbn. lia.
Qed.

(** C2, amended: the selection of the next generation passes the pool of
    parents and offspring to the sorter once, with the length of the pool as
    size limit, which is twice the target size for a population and an
    offspring of the target size; every other call it makes is a call to the
    hypervolume routine. *)
Theorem select_next_sort_limit mu pop offspring w :
  length pop = mu → length offspring = mu →
  ∃ cs, calls (select_next toolbox mu pop offspring w).2
        = calls w ++ CallSort (pop ++ offspring) (2 * mu) :: cs
      ∧ Forall is_hypervolume_call cs.
Proof.
  intros Hp Ho. destruct (select_next_calls mu pop offspring w) as (cs & H & F).
  exists cs. split; [|assumption]. rewrite H, length_app, Hp, Ho.
  do 3 f_equal. lia.
Qed.

(** C5, amended: for a front of individuals whose fitnesses hold tuples of
    one length, with a reference point supplied or at least one individual,
    [hypervolume_contrib] returns as many values as the front has individuals,
    in the order of the front; the value at index [i] is the hypervolume of
    the front minus the hypervolume of the front without its [i]-th point,
    the others in their order.  The hypervolume of the whole front is
    computed by the first call and by no other, and all the calls share one
    reference point: the one supplied or, without one, the maximum of each
    objective over the front plus 1. *)
Theorem hypervolume_contrib_correct w front rows kargs_ref :
  fitness_rows (heap w) front = Some rows →
  rectangular rows = true →
  (kargs_ref = None → front ≠ []) →
  let wobj := negated rows in
  ∃ ref cs w',
    hypervolume_contrib toolbox front kargs_ref w = (Ok cs, w') ∧
    match kargs_ref with
    | Some r => ref = r
    | None => ∃ m, np_max_axis0 wobj = Ok m ∧ ref = map (λ x, x + 1)%float m
    end ∧
    length cs = length front ∧
    (∀ i, i < length front →
      cs !! i = Some (hypervolume toolbox wobj ref
                      - hypervolume toolbox (take i wobj ++ drop (S i) wobj) ref)%float) ∧
    (∃ rest, calls w' = calls w ++ CallHypervolume wobj ref :: rest ∧
       length rest = length front ∧
       (∀ i, i < length front →
          rest !! i = Some (CallHypervolume (take i wobj ++ drop (S i) wobj) ref)) ∧
       Forall (λ c, c ≠ CallHypervolume wobj ref) rest) ∧
    heap w' = heap w.
Proof.
  intros Hrows Hrect Hne wobj.
  assert (Hlen : length wobj = length front).
  { unfold wobj, negated. rewrite length_map. eapply fitness_rows_length, Hrows. }
  assert (Href : ∃ ref, reference kargs_ref wobj = Ok ref) .
  { destruct kargs_ref as [r|]; [now exists r|]. cbn.
    destruct wobj as [|r rs] eqn:E; [|eexists; reflexivity].
    destruct front; [now contradiction Hne|discriminate]. }
  destruct Href as [ref Href]. exists ref.
  eexists _, _. split; [exact (hypervolume_contrib_run w front rows kargs_ref ref Hrows Hrect Href)|].
  fold wobj. split; [|split; [|split; [|split]]].
  - destruct kargs_ref as [r|]; cbn in Href; [congruence|].
    destruct (np_max_axis0 wobj) as [m|]; [|discriminate].
    exists m. split; [reflexivity|congruence].
  - unfold contributions. now rewrite length_map, length_seq.
  - intros i Hi. unfold contributions. rewrite list_lookup_fmap, lookup_seq_lt by lia.
    reflexivity.
  - eexists. split; [reflexivity|]. rewrite length_map, length_seq.
    split; [assumption|]. split.
    + intros i Hi. rewrite list_lookup_fmap, lookup_seq_lt by lia. reflexivity.
    + apply Forall_fmap, Forall_forall. intros i Hi%elem_of_seq. cbn.
      intros E. injection E as E. apply (f_equal length) in E.
      rewrite without_length in E by lia. lia.
  - reflexivity.
Qed.

(** C8: the selection creates no object and changes neither the variables
    nor the primary fitness of any individual; an individual outside of the
    truncated front, the first front that does not fit, is left as it is, and
    so is, when no individual belongs to two fronts, every individual of a
    front admitted whole; when every front fits, nothing changes. *)
Theorem select_fronts_assigns_truncated_only mu fronts w :
  let w' := (select_fronts toolbox mu [] fronts w).2 in
  length (heap w') = length (heap w) ∧
  (∀ l ind, heap w !! l = Some ind →
     ∃ ind', heap w' !! l = Some ind' ∧
       fitness ind' = fitness ind ∧ genome ind' = genome ind) ∧
  (∀ l, (∀ f, truncated mu 0 fronts = Some f → l ∉ f) →
     heap w' !! l = heap w !! l) ∧
  (NoDup (concat fronts) →
     ∀ f l, f ∈ admitted mu 0 fronts → l ∈ f → heap w' !! l = heap w !! l) ∧
  (truncated mu 0 fronts = None → heap w' = heap w).
Proof.
  intros w'. destruct (select_fronts_frame mu [] fronts w) as [Hlen Hfr].
  fold w' in Hlen, Hfr. cbn [length] in Hfr.
  assert (Hout : ∀ l, (∀ f, truncated mu 0 fronts = Some f → l ∉ f) →
                 heap w' !! l = heap w !! l).
  { intros l Hl. destruct (heap w !! l) as [ind|] eqn:E.
    - destruct (Hfr l ind E) as (ind' & E' & _ & _ & Hs). rewrite E'. f_equal.
      apply Hs. intros (f & Hf & Hin). now apply (Hl f Hf).
    - apply lookup_ge_None. rewrite Hlen. now apply lookup_ge_None. }
  split; [exact Hlen|]. split; [|split; [exact Hout|split]].
  - intros l ind E. destruct (Hfr l ind E) as (ind' & E' & Hg & Hf & _).
    now exists ind'.
  - intros Hnd f l Hf Hl. apply Hout. intros t Ht Hlt.
    eapply admitted_truncated_disjoint; eauto.
  - intros Hnone. apply list_eq. intros l. apply Hout. intros f Hf. congruence.
Qed.

(** ** The transform of the fitness *)

Lemma negated_set_values (vs : list float) :
  length vs ≤ 2 →
  map (λ x, x * (-1))%float (wvalues (set_values FitnessMin vs)) = vs.
Proof.
  destruct vs as [|a [|b [|c vs]]]; cbn; intros H;
    rewrite ?float_mul_m1_m1; try reflexivity. lia.
Qed.

Lemma set_values_rows w front objs :
  Forall2 (λ l vs, ∃ ind, heap w !! l = Some ind
                          ∧ fitness ind = set_values FitnessMin vs) front objs →
  fitness_rows (heap w) front
  = Some (map (λ vs, wvalues (set_values FitnessMin vs)) objs).
Proof.
  intros H. apply mapM_Some_2. induction H as [|l vs front objs (ind & Hl & Hf) _ IH].
  - constructor.
  - constructor; [|exact IH]. rewrite Hl. cbn. now rewrite Hf.
Qed.

Lemma rectangular_set_values (objs : list point) :
  Forall (λ vs, length vs = 2) objs →
  rectangular (map (λ vs, wvalues (set_values FitnessMin vs)) objs) = true.
Proof.
  intros H. assert (H2 : Forall (λ r, length r = 2)
                     (map (λ vs, wvalues (set_values FitnessMin vs)) objs)).
  { apply Forall_fmap. eapply Forall_impl; [exact H|]. cbn. intros vs Hvs.
    rewrite length_zip_with. cbn. lia. }
  destruct H2 as [|r rs Hr Hrs]; [reflexivity|]. cbn.
  apply forallb_forall. intros r' Hin. apply Nat.eqb_eq.
  rewrite Hr. rewrite Forall_forall in Hrs. apply Hrs. now apply list_elem_of_In.
Qed.

Lemma negated_objectives (objs : list point) :
  Forall (λ vs, length vs = 2) objs →
  negated (map (λ vs, wvalues (set_values FitnessMin vs)) objs) = objs.
Proof.
  intros H. unfold negated. rewrite map_map. induction H as [|vs objs Hvs _ IH].
  - reflexivity.
  - cbn [map]. rewrite IH. f_equal. apply negated_set_values. lia.
Qed.

(** C7: [hypervolume_contrib] passes to the hypervolume routine the
    objective values themselves.  The fitness of weights (-1.0, -1.0) caches
    the two objective values of an individual multiplied by -1.0, and the
    rows of [wobj], these values multiplied by -1, are the objective values
    again, exactly, for every binary64 number; every point set of every call
    is the list of the objective values of the front, whole or without one
    point. *)
Theorem hypervolume_on_objective_values w front objs kargs_ref :
  Forall2 (λ l vs, ∃ ind, heap w !! l = Some ind
                          ∧ fitness ind = set_values FitnessMin vs) front objs →
  Forall (λ vs, length vs = 2) objs →
  (kargs_ref = None → front ≠ []) →
  Forall (λ vs, map (λ x, x * (-1))%float (wvalues (set_values FitnessMin vs)) = vs) objs
  ∧ ∃ ref cs w',
      hypervolume_contrib toolbox front kargs_ref w = (Ok cs, w') ∧
      calls w' = calls w ++ CallHypervolume objs ref
                 :: map (λ i, CallHypervolume (take i objs ++ drop (S i) objs) ref)
                      (seq 0 (length objs)).
Proof.
  intros Hfront Hlen Hne. split.
  { eapply Forall_impl; [exact Hlen|]. cbn. intros vs Hvs.
    apply negated_set_values. lia. }
  pose proof (set_values_rows _ _ _ Hfront) as Hrows.
  pose proof (rectangular_set_values _ Hlen) as Hrect.
  pose proof (negated_objectives _ Hlen) as Hneg.
  assert (Href : ∃ ref, reference kargs_ref objs = Ok ref).
  { destruct kargs_ref as [r|]; [now exists r|]. cbn.
    destruct Hfront; [now contradiction Hne|]. eexists. reflexivity. }
  destruct Href as [ref Href]. exists ref. eexists _, _.
  rewrite <- Hneg in Href.
  rewrite (hypervolume_contrib_run w front _ kargs_ref ref Hrows Hrect Href).
  rewrite Hneg. split; reflexivity.
Qed.

(** C6: in the scenario of the spec, the points (1,5), (2,3) and (4,1) with
    the reference point (5,6), the hypervolume is 12, the hypervolume without
    (2,3) is 8 and the contribution of (2,3) is 12 - 8 = 4; on a front of
    three individuals with these objective values, [hypervolume_contrib]
    derives the reference point (5,6) and returns the contributions 1, 4
    and 2. *)
Theorem scenario_contributions w l1 l2 l3 i1 i2 i3 :
  hypervolume toolbox = hypervolume_spec →
  heap w !! l1 = Some i1 → fitness i1 = set_values FitnessMin [1; 5]%float →
  heap w !! l2 = Some i2 → fitness i2 = set_values FitnessMin [2; 3]%float →
  heap w !! l3 = Some i3 → fitness i3 = set_values FitnessMin [4; 1]%float →
  hypervolume_spec [[1; 5]; [2; 3]; [4; 1]]%float [5; 6]%float = 12%float ∧
  hypervolume_spec [[1; 5]; [4; 1]]%float [5; 6]%float = 8%float ∧
  (12 - 8 = 4)%float ∧
  reference None [[1; 5]; [2; 3]; [4; 1]]%float = Ok [5; 6]%float ∧
  ∃ w', hypervolume_contrib toolbox [l1; l2; l3] None w = (Ok [1; 4; 2]%float, w') ∧
    calls w' = calls w ++
      [CallHypervolume [[1; 5]; [2; 3]; [4; 1]] [5; 6];
       CallHypervolume [[2; 3]; [4; 1]] [5; 6];
       CallHypervolume [[1; 5]; [4; 1]] [5; 6];
       CallHypervolume [[1; 5]; [2; 3]] [5; 6]]%float.
Proof.
  intros Hhv H1 F1 H2 F2 H3 F3.
  split; [reflexivity|]. split; [reflexivity|]. split; [reflexivity|].
  split; [reflexivity|].
  assert (Hrows : fitness_rows (heap w) [l1; l2; l3]
                  = Some [[-1; -5]; [-2; -3]; [-4; -1]]%float).
  { unfold fitness_rows. cbn. rewrite H1, H2, H3. cbn. now rewrite F1, F2, F3. }
  eexists. rewrite (hypervolume_contrib_run w _ _ None [5; 6]%float Hrows);
    [|reflexivity..].
  rewrite Hhv. split; reflexivity.
Qed.

(** ** The truncation of a front *)

Lemma set_heap_id w : set_heap (heap w) w = w.
Proof. now destruct w. Qed.

Lemma assign_length h ps : length (assign h ps) = length h.
Proof.
  revert h. induction ps as [|p ps IH]; intros h; [reflexivity|].
  cbn. rewrite IH. destruct (h !! p.1); [apply length_insert|reflexivity].
Qed.

Lemma assign_other h ps l : l ∉ ps.*1 → assign h ps !! l = h !! l.
Proof.
  revert h. induction ps as [|p ps IH]; intros h Hl; [reflexivity|].
  cbn in *. apply not_elem_of_cons in Hl as [Hne Hl]. rewrite IH by assumption.
  destruct (h !! p.1); [|reflexivity]. now apply list_lookup_insert_ne.
Qed.

Lemma assign_lookup h ps l c ind :
  NoDup ps.*1 → (l, c) ∈ ps → h !! l = Some ind →
  assign h ps !! l = Some (with_fitness_hv (set_values FitnessHV [c]) ind).
Proof.
  revert h. induction ps as [|p ps IH]; intros h Hnd Hin Hl.
  - now apply elem_of_nil in Hin.
  - cbn in *. apply NoDup_cons in Hnd as [Hp Hnd].
    apply elem_of_cons in Hin as [<-|Hin].
    + cbn in *. rewrite Hl, assign_other by assumption.
      apply list_lookup_insert_eq. eapply lookup_lt_Some, Hl.
    + apply IH; [assumption..|].
      assert (p.1 ≠ l).
      { intros <-. apply Hp. apply list_elem_of_fmap. now exists (p.1, c). }
      destruct (h !! p.1); [|assumption]. now rewrite list_lookup_insert_ne.
Qed.

Lemma assign_run ps w :
  Forall (λ p, p.1 < length (heap w)) ps →
  for_each (λ p : loc * float,
      ind ← read p.1;
      write p.1 (with_fitness_hv (set_values FitnessHV [p.2]) ind)) ps w
  = (Ok (), set_heap (assign (heap w) ps) w).
Proof.
  revert w. induction ps as [|p ps IH]; intros w H.
  - cbn. now rewrite set_heap_id.
  - apply Forall_cons in H as [Hp H]. rewrite for_each_cons_run.
    destruct (lookup_lt_is_Some_2 _ _ Hp) as [ind Hind].
    rewrite (bind_ok _ _ _ _ _ (read_ok _ _ _ Hind)). unfold write. cbv beta iota.
    rewrite IH; cbn [heap].
    + cbn [assign foldl]. rewrite Hind. reflexivity.
    + rewrite length_insert. exact H.
Qed.

Lemma mapM_read_run ls w :
  Forall (λ l, l < length (heap w)) ls →
  ∃ inds, mapM read ls w = (Ok inds, w) ∧
    Forall2 (λ l ind, heap w !! l = Some ind) ls inds.
Proof.
  induction 1 as [|l ls Hl _ (inds & IH & F)].
  - exists []. split; [reflexivity|constructor].
  - destruct (lookup_lt_is_Some_2 _ _ Hl) as [ind Hind].
    exists (ind :: inds). split; [|now constructor].
    now rewrite mapM_cons_run, (read_ok _ _ _ Hind), IH.
Qed.

Lemma fitness_rows_valid h front rows :
  fitness_rows h front = Some rows → Forall (λ l, l < length h) front.
Proof.
  intros H. apply mapM_Some_1 in H. induction H as [|l r front rows Hl _ IH].
  - constructor.
  - constructor; [|assumption]. destruct (h !! l) eqn:E; [|discriminate].
    eapply lookup_lt_Some, E.
Qed.

Lemma fill_chosen_run mu chosen f w rows ref :
  fitness_rows (heap w) f = Some rows →
  rectangular rows = true →
  reference None (negated rows) = Ok ref →
  let cs := contributions (hypervolume toolbox) (negated rows) ref in
  let w2 := set_heap (assign (heap w) (zip f cs))
              (add_calls (contrib_calls (negated rows) ref) w) in
  ∃ inds, Forall2 (λ l ind, heap w2 !! l = Some ind) f inds ∧
    fill_chosen toolbox mu chosen f w =
    (Ok (chosen ++ take (mu - length chosen)
           (map fst (sorted_best (λ p, fitness_hv p.2) (zip f inds)))), w2).
Proof.
  intros Hrows Hrect Href cs w2.
  pose proof (fitness_rows_valid _ _ _ Hrows) as Hvalid.
  assert (Hv2 : Forall (λ l, l < length (heap w2)) f).
  { unfold w2. cbn [heap set_heap]. now rewrite assign_length. }
  destruct (mapM_read_run f w2 Hv2) as (inds & Hread & F).
  exists inds. split; [exact F|].
  unfold fill_chosen.
  rewrite (bind_ok _ _ _ _ _ (hypervolume_contrib_run w f rows None ref Hrows Hrect Href)).
  fold cs.
  assert (Hassign : Forall (λ p : loc * float,
             p.1 < length (heap (add_calls (contrib_calls (negated rows) ref) w)))
            (zip f cs)).
  { apply Forall_forall. intros [l c] Hin. cbn.
    rewrite Forall_forall in Hvalid. apply Hvalid. eapply elem_of_zip_l, Hin. }
  rewrite (bind_ok _ _ _ _ _ (assign_run _ _ Hassign)). cbn [heap add_calls].
  fold w2. unfold select, selBest.
  rewrite (bind_ok _ _ _ _ _ (bind_ok _ _ _ _ _ Hread)).
  reflexivity.
Qed.

Lemma select_fronts_split mu chosen fronts w :
  select_fronts toolbox mu chosen fronts w =
  match truncated mu (length chosen) fronts with
  | None => (Ok (chosen ++ concat (admitted mu (length chosen) fronts)), w)
  | Some f =>
      fill_chosen toolbox mu (chosen ++ concat (admitted mu (length chosen) fronts)) f w
  end.
Proof.
  revert chosen. induction fronts as [|g gs IH]; intros chosen.
  - cbn. now rewrite app_nil_r.
  - cbn [select_fronts truncated admitted].
    destruct (length chosen + length g <=? mu).
    + rewrite IH, length_app. cbn [concat]. now rewrite app_assoc.
    + cbn. now rewrite app_nil_r.
Qed.

Lemma admitted_length mu n fronts :
  n ≤ mu → n + length (concat (admitted mu n fronts)) ≤ mu.
Proof.
  revert n. induction fronts as [|g gs IH]; intros n Hn; cbn; [lia|].
  destruct (Nat.leb_spec (n + length g) mu) as [Hle|Hlt]; cbn; [|lia].
  rewrite length_app. specialize (IH _ Hle). lia.
Qed.

Lemma truncated_overflow mu n fronts f :
  truncated mu n fronts = Some f →
  mu < n + length (concat (admitted mu n fronts)) + length f.
Proof.
  revert n. induction fronts as [|g gs IH]; intros n H; [discriminate|].
  cbn in *. destruct (Nat.leb_spec (n + length g) mu) as [Hle|Hlt].
  - cbn. rewrite length_app. specialize (IH _ H). lia.
  - injection H as <-. cbn. lia.
Qed.

Lemma truncated_None mu n fronts :
  truncated mu n fronts = None → admitted mu n fronts = fronts.
Proof.
  revert n. induction fronts as [|g gs IH]; intros n H; [reflexivity|].
  cbn in *. destruct (n + length g <=? mu); [|discriminate].
  f_equal. now apply IH.
Qed.

Lemma Forall2_zip_elem {A B} (P : A → B → Prop) (l : list A) (k : list B) x y :
  Forall2 P l k → (x, y) ∈ zip l k → P x y.
Proof.
  induction 1 as [|a b l k Hab _ IH]; cbn; intros Hin.
  - now apply elem_of_nil in Hin.
  - apply elem_of_cons in Hin as [E|Hin]; [now injection E as -> ->|now apply IH].
Qed.

(** The individuals of a truncated front after the assignment of the
    contributions. *)
Lemma assigned_scores w f rows ref :
  NoDup f → fitness_rows (heap w) f = Some rows →
  let cs := contributions (hypervolume toolbox) (negated rows) ref in
  Forall2 (λ l c, ∃ ind, assign (heap w) (zip f cs) !! l = Some ind
                         ∧ wvalues (fitness_hv ind) = [c]) f cs.
Proof.
  intros Hnd Hrows cs.
  assert (Hlen : length f = length cs).
  { unfold cs, contributions, negated. rewrite length_map, length_seq, length_map.
    symmetry. eapply fitness_rows_length, Hrows. }
  pose proof (fitness_rows_valid _ _ _ Hrows) as Hvalid.
  apply Forall2_same_length_lookup. split; [exact Hlen|].
  intros i l c Hl Hc.
  rewrite Forall_forall in Hvalid.
  destruct (lookup_lt_is_Some_2 (heap w) l) as [ind Hind].
  { apply Hvalid. eapply list_elem_of_lookup_2, Hl. }
  eexists. split.
  - apply (assign_lookup _ _ l c ind); [|  |exact Hind].
    + rewrite fst_zip by lia. exact Hnd.
    + apply list_elem_of_lookup. exists i. now rewrite lookup_zip_with, Hl, Hc.
  - cbn. now rewrite float_mul_1_r.
Qed.

Lemma fill_chosen_correct mu chosen f w :
  length chosen ≤ mu → mu < length chosen + length f →
  scorable toolbox w f →
  ∃ kept w',
    fill_chosen toolbox mu chosen f w = (Ok (chosen ++ kept), w') ∧
    length kept = mu - length chosen ∧
    kept ⊆ f ∧
    (∀ rows ref, fitness_rows (heap w) f = Some rows →
       reference None (negated rows) = Ok ref →
       Forall2 (λ l c, ∃ ind, heap w' !! l = Some ind ∧ score ind = Some c)
         f (contributions (hypervolume toolbox) (negated rows) ref)) ∧
    (∀ x y, x ∈ kept → y ∈ f → y ∉ kept →
       ∃ ix iy sx sy, heap w' !! x = Some ix ∧ heap w' !! y = Some iy ∧
         score ix = Some sx ∧ score iy = Some sy ∧ (sy <=? sx)%float = true).
Proof.
  intros Hle Hlt (Hnd & rows & Hrows & Hrect & Hnan).
  assert (Hlen : length rows = length f) by (eapply fitness_rows_length, Hrows).
  assert (Href : ∃ ref, reference None (negated rows) = Ok ref).
  { cbn. destruct rows; [cbn in Hlen; lia|]. eexists. reflexivity. }
  destruct Href as [ref Href]. specialize (Hnan ref Href).
  destruct (fill_chosen_run mu chosen f w rows ref Hrows Hrect Href)
    as (inds & F & Hrun).
  set (cs := contributions (hypervolume toolbox) (negated rows) ref) in *.
  set (w2 := set_heap _ _) in *.
  set (key := λ p : loc * Individual, fitness_hv p.2) in *.
  set (s := sorted_best key (zip f inds)) in *.
  set (k := mu - length chosen) in *.
  pose proof (assigned_scores w f rows ref Hnd Hrows) as Hsc. fold cs in Hsc.
  assert (Hfi : length f = length inds) by (eapply Forall2_length, F).
  assert (Hperm : s ≡ₚ zip f inds) by apply sorted_best_perm.
  assert (Hfst : s.*1 ≡ₚ f).
  { rewrite Hperm. rewrite fst_zip by lia. reflexivity. }
  assert (Hheap : ∀ p, p ∈ s → heap w2 !! p.1 = Some p.2).
  { intros [l ind] Hp. rewrite Hperm in Hp. cbn.
    apply (Forall2_zip_elem _ _ _ _ _ F Hp). }
  assert (Hscored : Forall (scored key) (zip f inds)).
  { apply Forall_forall. intros [l ind] Hp.
    pose proof (Forall2_zip_elem _ _ _ _ _ F Hp) as Hl. cbn in Hl.
    apply elem_of_zip_l in Hp. apply list_elem_of_lookup in Hp as [i Hi].
    destruct (Forall2_lookup_l _ _ _ _ _ Hsc Hi) as (c & Hc & ind' & Hl' & Hw).
    unfold w2 in Hl. cbn [heap set_heap add_calls] in Hl.
    assert (ind' = ind) as -> by congruence.
    exists c. split; [exact Hw|].
    rewrite Forall_forall in Hnan. apply Hnan. eapply list_elem_of_lookup_2, Hc. }
  exists (take k s.*1), w2. split; [exact Hrun|]. split; [|split; [|split]].
  - rewrite length_take, length_fmap, (Permutation_length Hperm), length_zip_with. lia.
  - intros x Hx. apply elem_of_take in Hx as (i & Hx & _).
    rewrite <- Hfst. eapply list_elem_of_lookup_2, Hx.
  - intros rows' ref' Hrows' Href'.
    assert (rows' = rows) as -> by congruence.
    assert (ref' = ref) as -> by congruence.
    eapply Forall2_impl; [exact Hsc|]. cbn. intros l c (ind & Hl & Hw).
    exists ind. split; [exact Hl|]. unfold score. now rewrite Hw.
  - intros x y Hx Hy Hny.
    rewrite <- fmap_take in Hx. apply list_elem_of_fmap in Hx as (p & -> & Hp).
    assert (Hyd : y ∈ drop k s.*1).
    { rewrite <- Hfst, <- (take_drop k s.*1) in Hy.
      apply elem_of_app in Hy as [Hy|Hy]; [contradiction|assumption]. }
    rewrite <- fmap_drop in Hyd. apply list_elem_of_fmap in Hyd as (q & -> & Hq).
    destruct (sorted_best_take_drop key (zip f inds) k p q Hscored Hp Hq)
      as (sp & sq & Hsp & Hsq & Hord).
    exists p.2, q.2, sp, sq.
    split; [apply Hheap; eapply subseteq_take, Hp|].
    split; [apply Hheap; eapply subseteq_drop, Hq|].
    unfold score. unfold key in Hsp, Hsq. now rewrite Hsp, Hsq.
Qed.

(** C4: when the fronts hold at least as many individuals as the target
    size, and the front to truncate can be scored, the selection returns a
    population of exactly the target size; it holds every individual of every
    front admitted whole, then individuals of the truncated front; the score
    stored in each individual of the truncated front is its hypervolume
    contribution, and the score of an individual kept is greater than or
    equal to the score of every individual of that front left out.  In the
    scenario of the spec, selecting 2 of the 3 points of one front keeps
    (2,3) and (4,1), of contributions 4 and 2, and drops (1,5), of
    contribution 1. *)
Theorem select_fronts_correct :
  (∀ mu fronts w,
     mu ≤ total fronts →
     (∀ f, truncated mu 0 fronts = Some f → scorable toolbox w f) →
     ∃ chosen w',
       select_fronts toolbox mu [] fronts w = (Ok chosen, w') ∧
       length chosen = mu ∧
       (∀ g l, g ∈ admitted mu 0 fronts → l ∈ g → l ∈ chosen) ∧
       (∀ f, truncated mu 0 fronts = Some f →
          ∃ kept,
            chosen = concat (admitted mu 0 fronts) ++ kept ∧ kept ⊆ f ∧
            (∀ rows ref, fitness_rows (heap w) f = Some rows →
               reference None (negated rows) = Ok ref →
               Forall2 (λ l c, ∃ ind, heap w' !! l = Some ind ∧ score ind = Some c)
                 f (contributions (hypervolume toolbox) (negated rows) ref)) ∧
            (∀ x y, x ∈ kept → y ∈ f → y ∉ kept →
               ∃ ix iy sx sy, heap w' !! x = Some ix ∧ heap w' !! y = Some iy ∧
                 score ix = Some sx ∧ score iy = Some sy ∧
                 (sy <=? sx)%float = true)))
  ∧ (∃ v : World nat,
        select_fronts example_toolbox 2 [] [[0; 1; 2]] scenario = (Ok [1; 2], v)
        ∧ map score (heap v) = [Some 1; Some 4; Some 2]%float).
Proof.
  split; [|eexists; split; reflexivity].
  intros mu fronts w Htotal Hscorable.
  pose proof (admitted_length mu 0 fronts (Nat.le_0_l mu)) as Hadm.
  rewrite select_fronts_split. cbn [length app] in *.
  destruct (truncated mu 0 fronts) as [f|] eqn:Ht.
  - pose proof (truncated_overflow _ _ _ _ Ht) as Hover.
    destruct (fill_chosen_correct mu (concat (admitted mu 0 fronts)) f w)
      as (kept & w' & Hrun & Hlen & Hsub & Hscore & Hord);
      [lia|lia|now apply Hscorable|].
    exists (concat (admitted mu 0 fronts) ++ kept), w'.
    split; [exact Hrun|]. split; [rewrite length_app; lia|]. split.
    + intros g l Hg Hl. apply elem_of_app. left. apply elem_of_concat. now exists g.
    + intros f' Hf'. injection Hf' as <-. now exists kept.
  - exists (concat (admitted mu 0 fronts)), w. split; [reflexivity|].
    rewrite (truncated_None _ _ _ Ht) in *. unfold total in Htotal.
    split; [lia|]. split; [|discriminate].
    intros g l Hg Hl. apply elem_of_concat. now exists g.
Qed.

(** ** The variation *)

Lemma zip_every_other {A} (l : list A) :
  zip (every_other l) (every_other (drop 1 l)) = pairs_of l.
Proof.
  assert (H : ∀ n (l : list A), length l ≤ n →
            zip (every_other l) (every_other (drop 1 l)) = pairs_of l).
  { clear l. induction n as [|n IH]; intros l Hl.
    - destruct l; [reflexivity|cbn in Hl; lia].
    - destruct l as [|x [|y l]]; [reflexivity..|].
      cbn [every_other drop pairs_of]. cbn in Hl.
      destruct l as [|z l]; [reflexivity|].
      cbn [zip zip_with]. f_equal.
      specialize (IH (z :: l)). cbn [drop] in IH. apply IH. cbn in *. lia. }
  now apply (H (length l)).
Qed.

Lemma triple_ret {A} N S (P : World Rng → Prop) (a : A) :
  triple N S P (mret a) (λ _ w, P w).
Proof. intros w Hw Hp. now exists a, w. Qed.

Lemma triple_bind {A B} N S P (m : Py Rng A) (f : A → Py Rng B) Q1 Q :
  triple N S P m Q1 → (∀ a, triple N S (Q1 a) (f a) Q) → triple N S P (m ≫= f) Q.
Proof.
  intros Hm Hf w Hw Hp. destruct (Hm w Hw Hp) as (a & w1 & Hrun & Hlen & Hfr & Hq).
  destruct (Hf a w1 Hlen Hq) as (b & w2 & Hrun2 & Hlen2 & Hfr2 & Hq2).
  exists b, w2. rewrite (bind_ok _ _ _ _ _ Hrun). split; [exact Hrun2|].
  split; [exact Hlen2|]. split; [|exact Hq2].
  intros l Hl. now rewrite Hfr2, Hfr.
Qed.

Lemma triple_conseq {A} N S S' (P P' : World Rng → Prop) (m : Py Rng A)
    (Q Q' : A → World Rng → Prop) :
  triple N S P m Q → (∀ l, S l → S' l) → (∀ w, P' w → P w) →
  (∀ a w, Q a w → Q' a w) → triple N S' P' m Q'.
Proof.
  intros Hm HS HP HQ w Hw Hp. destruct (Hm w Hw (HP _ Hp)) as (a & w' & H1 & H2 & H3 & H4).
  exists a, w'. repeat split; auto.
Qed.

Lemma triple_read N S l :
  l < N → triple N S (λ _, True) (read l : Py Rng Individual) (λ _ _, True).
Proof.
  intros Hl w Hw _. destruct (lookup_lt_is_Some_2 (heap w) l) as [ind Hind]; [lia|].
  exists ind, w. now rewrite (read_ok _ _ _ Hind).
Qed.

Lemma triple_write N (S : loc → Prop) l ind :
  S l → triple N S (λ _, True) (write l ind : Py Rng unit) (λ _ _, True).
Proof.
  intros Hl w Hw _. eexists _, _. split; [reflexivity|]. cbn.
  split; [now rewrite length_insert|]. split; [|exact I].
  intros l' Hl'. apply list_lookup_insert_ne. intros ->. contradiction.
Qed.

Lemma triple_with_rng {A} N S (f : Rng → A * Rng) :
  triple N S (λ _, True) (with_rng f) (λ _ _, True).
Proof.
  intros w Hw _. unfold with_rng. destruct (f (rng w)) as [a g].
  eexists _, _. split; [reflexivity|]. cbn. auto.
Qed.

Lemma triple_del N (S : loc → Prop) l l0 :
  l < N → S l →
  triple N S (λ w, l0 ≠ l → invalid_at w l0) (del_fitness_values l)
    (λ _ w, invalid_at w l ∧ (l0 ≠ l → invalid_at w l0)).
Proof.
  intros Hl HS w Hw Hp.
  destruct (lookup_lt_is_Some_2 (heap w) l) as [ind Hind]; [lia|].
  eexists _, _. unfold del_fitness_values.
  rewrite (bind_ok _ _ _ _ _ (read_ok _ _ _ Hind)). split; [reflexivity|]. cbn.
  split; [now rewrite length_insert|]. split; [|split].
  - intros l' Hl'. apply list_lookup_insert_ne. intros ->. contradiction.
  - eexists. split; [apply list_lookup_insert_eq; lia|]. reflexivity.
  - intros Hne. destruct (Hp Hne) as (ind0 & H0 & V0). exists ind0.
    split; [|exact V0]. unfold heap at 1. cbn. now rewrite list_lookup_insert_ne.
Qed.


Lemma triple_true_ret {A} N S (a : A) :
  triple N S (λ _ : World Rng, True) (mret a) (λ _ _, True).
Proof. apply (triple_ret N S (λ _, True)). Qed.

(** One statement of a sequence that writes at most to the two members of a
    pair. *)
Ltac triple_step :=
  eapply triple_bind;
  [first [ apply triple_with_rng
         | apply triple_read; assumption
         | apply triple_write; (now left) || (now right) ]
  | intros ? ].

Lemma vary_pair_triple N (p : loc * loc) :
  p.1 < N → p.2 < N →
  triple N (λ l, l = p.1 ∨ l = p.2) (λ _, True) (vary_pair toolbox p)
    (λ _ w, invalid_at w p.1 ∧ invalid_at w p.2).
Proof.
  intros H1 H2. unfold vary_pair.
  pose (S := λ l : loc, l = p.1 ∨ l = p.2).
  triple_step. eapply triple_bind.
  { destruct (_ <=? CXPB)%float; [|apply triple_true_ret].
    do 4 triple_step. apply triple_write; now right. }
  intros ?. eapply triple_bind.
  { do 2 triple_step. apply triple_write; now left. }
  intros ?. eapply triple_bind.
  { do 2 triple_step. apply triple_write; now right. }
  intros ?. eapply triple_bind.
  { eapply triple_conseq;
      [apply (triple_del N S p.1 p.1); [assumption|now left]|..].
    - auto.
    - intros w _ Hne. now contradiction Hne.
    - intros ? w Hq. exact (proj1 Hq). }
  intros ?. cbn beta.
  eapply triple_conseq;
    [apply (triple_del N S p.2 p.1); [assumption|now right]|..].
  - auto.
  - cbn. auto.
  - cbn. intros ? w [Hq2 Hq1]. split; [|exact Hq2].
    destruct (decide (p.1 = p.2)) as [E|E]; [now rewrite E|now apply Hq1].
Qed.

Lemma pairs_loop N (ps : list (loc * loc)) :
  Forall (λ p, p.1 < N ∧ p.2 < N) ps → NoDup (unpairs ps) →
  triple N (λ l, l ∈ unpairs ps) (λ _, True) (for_each (vary_pair toolbox) ps)
    (λ _ w, Forall (λ p, invalid_at w p.1 ∧ invalid_at w p.2) ps).
Proof.
  induction ps as [|p ps IH]; intros Hps Hnd w Hw _.
  - exists (), w. repeat split; auto.
  - apply Forall_cons in Hps as [[H1 H2] Hps]. cbn [unpairs] in Hnd.
    apply NoDup_cons in Hnd as [Hn1 Hnd]. apply NoDup_cons in Hnd as [Hn2 Hnd].
    destruct (vary_pair_triple N p H1 H2 w Hw I) as ([] & w1 & Hrun & Hlen & Hfr & Hq).
    destruct (IH Hps Hnd w1 Hlen I) as ([] & w2 & Hrun2 & Hlen2 & Hfr2 & Hq2).
    exists (), w2. rewrite for_each_cons_run, Hrun. split; [exact Hrun2|].
    split; [exact Hlen2|]. split.
    + intros l Hl. cbn [unpairs] in Hl.
      rewrite !not_elem_of_cons in Hl. destruct Hl as (? & ? & ?).
      rewrite Hfr2, Hfr by tauto. reflexivity.
    + constructor; [|exact Hq2]. destruct Hq as [(i1 & E1 & V1) (i2 & E2 & V2)].
      rewrite not_elem_of_cons in Hn1. destruct Hn1 as [_ Hn1].
      split; [exists i1|exists i2]; (split; [|assumption]); now rewrite Hfr2.
Qed.

Lemma unpairs_pairs_of {A} (l : list A) :
  unpairs (pairs_of l) = take (2 * (length l / 2)) l.
Proof.
  assert (H : ∀ n (l : list A), length l ≤ n →
            unpairs (pairs_of l) = take (2 * (length l / 2)) l).
  { clear l. induction n as [|n IH]; intros l Hl.
    - destruct l; [reflexivity|cbn in Hl; lia].
    - destruct l as [|x [|y l]]; [reflexivity..|].
      cbn [pairs_of unpairs fst snd length].
      replace (2 * (S (S (length l)) / 2)) with (S (S (2 * (length l / 2)))).
      + cbn [take]. do 2 f_equal. apply IH. cbn in Hl. lia.
      + change (S (S (length l))) with (1 * 2 + length l) at 1.
        rewrite Nat.add_comm, Nat.div_add by lia. lia. }
  now apply (H (length l)).
Qed.

Lemma draw_perm {A} (k : nat) (l : list A) (g : Rng) :
  length l ≤ k → (draw toolbox k l g).1 ≡ₚ l.
Proof.
  revert l g. induction k as [|k IH]; intros l g Hk.
  - destruct l; [reflexivity|cbn in Hk; lia].
  - destruct l as [|x l]; [reflexivity|].
    cbn [draw]. destruct (randbelow (py toolbox) (length (x :: l)) g) as [j g'].
    set (i := j `mod` length (x :: l)).
    assert (Hi : i < length (x :: l)) by (apply Nat.mod_upper_bound; cbn; lia).
    destruct (lookup_lt_is_Some_2 _ _ Hi) as [y Hy].
    specialize (IH (delete i (x :: l)) g').
    destruct (draw toolbox k (delete i (x :: l)) g') as [rest g''].
    cbn [fst] in *. rewrite Hy. cbn [default from_option].
    rewrite IH.
    + symmetry. now apply delete_Permutation.
    + rewrite length_delete by (now exists y). cbn in *. lia.
Qed.

Lemma selRandom_run pop k w :
  selRandom toolbox pop k w =
  (Ok (draw toolbox k pop (rng w)).1,
   mkWorld (heap w) (draw toolbox k pop (rng w)).2 (calls w) (stdout w)).
Proof.
  unfold selRandom, with_rng. now destruct (draw toolbox k pop (rng w)).
Qed.

Lemma clone_run ls w :
  Forall (λ l, l < length (heap w)) ls →
  ∃ inds, Forall2 (λ l ind, heap w !! l = Some ind) ls inds ∧
    mapM clone ls w = (Ok (seq (length (heap w)) (length ls)),
                       set_heap (heap w ++ inds) w).
Proof.
  revert w. induction ls as [|l ls IH]; intros w H.
  - exists []. split; [constructor|]. cbn. now rewrite app_nil_r, set_heap_id.
  - apply Forall_cons in H as [Hl H].
    destruct (lookup_lt_is_Some_2 _ _ Hl) as [ind Hind].
    destruct (IH (set_heap (heap w ++ [ind]) w)) as (inds & F & Hrun).
    { cbn. eapply Forall_impl; [exact H|]. cbn. intros l' Hl'.
      rewrite length_app. lia. }
    exists (ind :: inds). split.
    + constructor; [exact Hind|].
      apply Forall2_same_length_lookup. split; [eapply Forall2_length, F|].
      intros i l' ind' Hl1 Hi1.
      pose proof (Forall2_lookup_lr _ _ _ _ _ _ F Hl1 Hi1) as Hl'. cbn in Hl'.
      rewrite lookup_app_l in Hl'; [exact Hl'|].
      rewrite Forall_forall in H. apply H. eapply list_elem_of_lookup_2, Hl1.
    + rewrite mapM_cons_run. unfold clone at 1.
      rewrite (bind_ok _ _ _ _ _ (read_ok _ _ _ Hind)). unfold alloc. cbv beta iota.
      fold (set_heap (heap w ++ [ind]) w). rewrite Hrun. cbn [heap set_heap].
      rewrite length_app. cbn [length seq]. rewrite Nat.add_1_r.
      now rewrite <- app_assoc.
Qed.

Lemma bind_inv {A B} (m : Py Rng A) (f : A → Py Rng B) w b w' :
  (m ≫= f) w = (Ok b, w') → ∃ a w1, m w = (Ok a, w1) ∧ f a w1 = (Ok b, w').
Proof.
  unfold mbind, Py_bind. destruct (m w) as [[a|e] w1]; [|discriminate].
  intros H. now exists a, w1.
Qed.

Lemma clone_offspring_run pop w :
  Forall (λ l, l < length (heap w)) pop →
  let sel := (draw toolbox (length pop) pop (rng w)).1 in
  ∃ inds w',
    clone_offspring toolbox pop w = (Ok (seq (length (heap w)) (length sel)), w') ∧
    Forall2 (λ l ind, heap w !! l = Some ind) sel inds ∧
    heap w' = heap w ++ inds.
Proof.
  intros Hpop sel. unfold clone_offspring.
  assert (Hperm : sel ≡ₚ pop) by (apply draw_perm; lia).
  set (w1 := mkWorld (heap w) (draw toolbox (length pop) pop (rng w)).2 (calls w) (stdout w)).
  assert (Hsel : Forall (λ l, l < length (heap w1)) sel) by now rewrite Hperm.
  destruct (clone_run sel w1 Hsel) as (inds & F & Hrun).
  exists inds, (set_heap (heap w1 ++ inds) w1).
  split; [|split; [exact F|reflexivity]].
  rewrite (bind_ok _ _ _ _ _ (selRandom_run pop (length pop) w)). fold sel w1.
  exact Hrun.
Qed.

(** C3: the offspring before crossover and mutation are as many new, distinct
    objects as the population has individuals; they are the copies, in
    order, of a list of individuals that is a permutation of the population,
    so that every individual of the population is cloned exactly once; the
    objects that were there are left as they were. *)
Theorem offspring_permutation pop w :
  Forall (λ l, l < length (heap w)) pop →
  ∃ sel offspring w',
    clone_offspring toolbox pop w = (Ok offspring, w') ∧
    sel ≡ₚ pop ∧
    length offspring = length pop ∧
    NoDup offspring ∧
    Forall (λ o, length (heap w) ≤ o) offspring ∧
    Forall2 (λ l o, ∃ ind, heap w !! l = Some ind ∧ heap w' !! o = Some ind)
      sel offspring ∧
    (∀ l, l < length (heap w) → heap w' !! l = heap w !! l).
Proof.
  intros Hpop. destruct (clone_offspring_run pop w Hpop) as (inds & w' & Hrun & F & Hheap).
  set (sel := (draw toolbox (length pop) pop (rng w)).1) in *.
  assert (Hperm : sel ≡ₚ pop) by (apply draw_perm; lia).
  exists sel, (seq (length (heap w)) (length sel)), w'.
  split; [exact Hrun|]. split; [exact Hperm|].
  split; [now rewrite length_seq, (Permutation_length Hperm)|].
  split; [apply NoDup_seq|]. split; [|split].
  - apply Forall_forall. intros o Ho%elem_of_seq. lia.
  - apply Forall2_same_length_lookup. split; [now rewrite length_seq|].
    intros i l o Hl Ho. apply lookup_seq in Ho as [-> Hi].
    destruct (Forall2_lookup_l _ _ _ _ _ F Hl) as (ind & Hind & Hlook).
    exists ind. split; [exact Hlook|].
    rewrite Hheap, lookup_app_r, Nat.add_comm, Nat.add_sub by lia. exact Hind.
  - intros l Hl. rewrite Hheap. now apply lookup_app_l.
Qed.

Lemma evaluate_loop (ls : list loc) w :
  NoDup ls → Forall (λ l, l < length (heap w)) ls →
  ∃ w', for_each (λ l, ind ← read l;
            write l (with_fitness (set_values FitnessMin (evaluate toolbox ind)) ind))
          ls w = (Ok (), w') ∧
    length (heap w') = length (heap w) ∧
    (∀ l, l ∉ ls → heap w' !! l = heap w !! l) ∧
    (∀ l ind, l ∈ ls → heap w !! l = Some ind →
       heap w' !! l
       = Some (with_fitness (set_values FitnessMin (evaluate toolbox ind)) ind)).
Proof.
  revert w. induction ls as [|l ls IH]; intros w Hnd Hls.
  - exists w. repeat split; auto. intros l ind Hl. now apply elem_of_nil in Hl.
  - apply NoDup_cons in Hnd as [Hl Hnd]. apply Forall_cons in Hls as [Hlt Hls].
    destruct (lookup_lt_is_Some_2 _ _ Hlt) as [ind Hind].
    rewrite for_each_cons_run, (bind_ok _ _ _ _ _ (read_ok _ _ _ Hind)).
    unfold write. cbv beta iota.
    match goal with |- context [for_each _ ls ?w1] => set (w1' := w1) end.
    destruct (IH w1' Hnd) as (w' & Hrun & Hlen & Hfr & Hpost).
    { cbn. now rewrite length_insert. }
    exists w'. split; [exact Hrun|]. cbn in Hlen, Hfr, Hpost.
    rewrite length_insert in Hlen. split; [exact Hlen|]. split.
    + intros l' Hl'. apply not_elem_of_cons in Hl' as [Hne Hl'].
      rewrite Hfr by assumption. now apply list_lookup_insert_ne.
    + intros l' ind' Hl' Hind'. apply elem_of_cons in Hl' as [->|Hl'].
      * rewrite Hfr by assumption. rewrite Hind in Hind'. injection Hind' as <-.
        now apply list_lookup_insert_eq.
      * apply Hpost; [assumption|]. rewrite list_lookup_insert_ne; [assumption|].
        intros ->. contradiction.
Qed.

Lemma evaluate_invalid_run (pop : list loc) w :
  NoDup pop → Forall (λ l, l < length (heap w)) pop →
  ∃ evals w',
    evaluate_invalid toolbox pop w = (Ok evals, w') ∧ evals ≤ length pop ∧
    ∀ ls, ls ⊆ pop → NoDup ls → Forall (invalid_at w) ls →
      length ls ≤ evals ∧
      Forall (λ l, ∃ ind, heap w !! l = Some ind ∧
                heap w' !! l
                = Some (with_fitness (set_values FitnessMin (evaluate toolbox ind)) ind))
        ls.
Proof.
  intros Hnd Hpop. destruct (mapM_read_run pop w Hpop) as (inds & Hread & F).
  unfold evaluate_invalid. rewrite (bind_ok _ _ _ _ _ Hread).
  set (sel := filter (λ p : loc * Individual, negb (valid (fitness p.2))) (zip pop inds)).
  assert (Hlen : length pop = length inds) by (eapply Forall2_length, F).
  assert (Hsub : sel.*1 `sublist_of` (zip pop inds).*1)
    by apply fmap_sublist, sublist_filter.
  rewrite fst_zip in Hsub by lia.
  assert (Hnd' : NoDup sel.*1) by (eapply sublist_NoDup; eassumption).
  assert (Hval : Forall (λ l, l < length (heap w)) sel.*1).
  { apply Forall_forall. intros l Hl. rewrite Forall_forall in Hpop. apply Hpop.
    eapply elem_of_sublist; eassumption. }
  destruct (evaluate_loop sel.*1 w Hnd' Hval) as (w' & Hrun & Hlen' & Hfr & Hpost).
  exists (length sel.*1), w'. split.
  { change (map fst sel) with (sel.*1). now rewrite (bind_ok _ _ _ _ _ Hrun). }
  split; [now apply sublist_length|].
  intros ls Hls Hndl Hinv.
  assert (Hin : ∀ l, l ∈ ls → l ∈ sel.*1).
  { intros l Hl. rewrite Forall_forall in Hinv. destruct (Hinv l Hl) as (ind & Hind & Hv).
    apply list_elem_of_fmap. exists (l, ind). split; [reflexivity|].
    apply list_elem_of_filter. split; [cbn; now rewrite Hv|].
    apply Hls in Hl. apply list_elem_of_lookup in Hl as [i Hi].
    destruct (Forall2_lookup_l _ _ _ _ _ F Hi) as (ind' & Hi' & Hind').
    assert (ind' = ind) as -> by congruence.
    apply list_elem_of_lookup. exists i. now rewrite lookup_zip_with, Hi, Hi'. }
  split.
  - apply submseteq_length, NoDup_submseteq; assumption.
  - apply Forall_forall. intros l Hl. rewrite Forall_forall in Hinv.
    destruct (Hinv l Hl) as (ind & Hind & Hv). exists ind. split; [exact Hind|].
    apply Hpost; [now apply Hin|exact Hind].
Qed.

Lemma vary_run (pop : list loc) w :
  Forall (λ l, l < length (heap w)) pop →
  let offspring := seq (length (heap w)) (length pop) in
  ∃ w', vary toolbox pop w = (Ok offspring, w') ∧
    length (heap w') = length (heap w) + length pop ∧
    Forall (invalid_at w') (take (2 * (length pop / 2)) offspring).
Proof.
  intros Hpop offspring.
  destruct (clone_offspring_run pop w Hpop) as (inds & w1 & Hrun & F & Hheap).
  set (sel := (draw toolbox (length pop) pop (rng w)).1) in *.
  assert (Hperm : sel ≡ₚ pop) by (apply draw_perm; lia).
  rewrite (Permutation_length Hperm) in Hrun. fold offspring in Hrun.
  assert (Hlen1 : length (heap w1) = length (heap w) + length pop).
  { rewrite Hheap, length_app, <- (Forall2_length _ _ _ F).
    now rewrite (Permutation_length Hperm). }
  pose proof (unpairs_pairs_of offspring) as Hun.
  unfold offspring in Hun at 2. rewrite length_seq in Hun. fold offspring in Hun.
  assert (Hsubl : unpairs (pairs_of offspring) `sublist_of` offspring).
  { rewrite Hun. apply sublist_take. }
  assert (Hnd : NoDup (unpairs (pairs_of offspring))).
  { eapply sublist_NoDup; [apply NoDup_seq|exact Hsubl]. }
  assert (Hps : Forall (λ p : loc * loc, p.1 < length (heap w1) ∧ p.2 < length (heap w1))
                  (pairs_of offspring)).
  { assert (Hall : Forall (λ l, l < length (heap w1)) (unpairs (pairs_of offspring))).
    { apply Forall_forall. intros l Hl.
      apply (λ H, elem_of_sublist _ _ _ H Hsubl), elem_of_seq in Hl. lia. }
    revert Hall. generalize (pairs_of offspring).
    induction l as [|p ps IH]; cbn; intros Hall; [constructor|].
    apply Forall_cons in Hall as [H1 Hall]. apply Forall_cons in Hall as [H2 Hall].
    constructor; [split; assumption|now apply IH]. }
  destruct (pairs_loop _ _ Hps Hnd w1 eq_refl I) as ([] & w2 & Hrun2 & Hlen2 & _ & Hq).
  exists w2. unfold vary. rewrite (bind_ok _ _ _ _ _ Hrun), zip_every_other.
  rewrite (bind_ok _ _ _ _ _ Hrun2). split; [reflexivity|].
  split; [lia|]. rewrite <- Hun.
  revert Hq. generalize (pairs_of offspring).
  induction l as [|p ps IH]; cbn; intros Hq; [constructor|].
  apply Forall_cons in Hq as [[H1 H2] Hq]. repeat constructor; auto.
Qed.


(** C10: the variation succeeds on a population of objects and returns as
    many distinct offspring; whatever the coin says and the operators do,
    the two members of every pair of consecutive offspring end with an
    invalid primary fitness, so that the evaluation that follows evaluates
    them all and counts at least as many evaluations; for a population of
    even size, as the 100 individuals of [main], every offspring is invalid
    and the count is the number of offspring, which is what the generation
    records as [evals]. *)
Theorem variation_invalidates (pop : list loc) w :
  Forall (λ l, l < length (heap w)) pop →
  ∃ offspring w' evals w'',
    vary toolbox pop w = (Ok offspring, w') ∧
    length offspring = length pop ∧ NoDup offspring ∧
    Forall (invalid_at w') (take (2 * (length pop / 2)) offspring) ∧
    evaluate_invalid toolbox offspring w' = (Ok evals, w'') ∧
    2 * (length pop / 2) ≤ evals ≤ length pop ∧
    Forall (λ l, ∃ ind, heap w' !! l = Some ind ∧
              heap w'' !! l
              = Some (with_fitness (set_values FitnessMin (evaluate toolbox ind)) ind))
      (take (2 * (length pop / 2)) offspring) ∧
    (Nat.Even (length pop) →
       Forall (invalid_at w') offspring ∧ evals = length offspring) ∧
    (∀ mu gen logbook pop' logbook' w3,
       generation toolbox mu gen (pop, logbook) w = (Ok (pop', logbook'), w3) →
       ∃ record, logbook' = logbook ++ [mkLogEntry gen evals record]).
Proof.
  intros Hpop. destruct (vary_run pop w Hpop) as (w' & Hvary & Hlen & Hinv).
  set (offspring := seq (length (heap w)) (length pop)) in *.
  set (k := 2 * (length pop / 2)) in *.
  assert (Hk : k ≤ length pop).
  { unfold k. pose proof (Nat.div_mod_eq (length pop) 2). lia. }
  assert (Hnd : NoDup offspring) by apply NoDup_seq.
  assert (Hoff : Forall (λ l, l < length (heap w')) offspring).
  { apply Forall_forall. intros l Hl%elem_of_seq. lia. }
  destruct (evaluate_invalid_run offspring w' Hnd Hoff) as (evals & w'' & Heval & Hle & Hpost).
  unfold offspring in Hle at 1. rewrite length_seq in Hle.
  destruct (Hpost (take k offspring)) as [Hge Hev];
    [apply subseteq_take|eapply sublist_NoDup; [exact Hnd|apply sublist_take]|exact Hinv|].
  rewrite length_take in Hge. unfold offspring in Hge at 1. rewrite length_seq in Hge.
  exists offspring, w', evals, w''. split; [exact Hvary|].
  split; [apply length_seq|]. split; [exact Hnd|]. split; [exact Hinv|].
  split; [exact Heval|]. split; [lia|]. split; [exact Hev|]. split.
  - intros [h Hh]. assert (k = length pop).
    { unfold k. rewrite Hh, (Nat.mul_comm 2 h), Nat.div_mul by lia. lia. }
    unfold offspring at 2. rewrite length_seq. split; [|lia].
    rewrite <- (take_ge offspring k); [exact Hinv|].
    unfold offspring. rewrite length_seq. lia.
  - intros mu gen logbook pop' logbook' w3. unfold generation. cbn [fst snd].
    rewrite (bind_ok _ _ _ _ _ Hvary), (bind_ok _ _ _ _ _ Heval).
    intros H. apply bind_inv in H as (pop1 & w4 & _ & H).
    apply bind_inv in H as (lb & w5 & Hrec & H). injection H as <- <- <-.
    unfold record_generation in Hrec.
    apply bind_inv in Hrec as (record & w6 & _ & Hrec).
    exists record. now injection Hrec as <- _.
Qed.

(** ** The seed *)

(** [random.seed(s)] with a seed: the generator restarts from the seed,
    whatever its state was. *)
Lemma random_seed_run (entropy s : Z) w :
  random_seed toolbox entropy (Some s) w
  = (Ok (), mkWorld (heap w) (seed (py toolbox) s) (calls w) (stdout w)).
Proof. reflexivity. Qed.

(** C9: with a seed, a run owes nothing to the state it finds the generator
    in, nor to the entropy of the system: two runs with one seed, one
    toolbox and one configuration, started in two worlds that hold the same
    objects, whatever the states of their generators, return the same
    population and the same logbook in the same world, heap, generator and
    output included, after any number of generations, the 250 of [main]
    among them. *)
Theorem evolve_deterministic ngen mu (entropy1 entropy2 s : Z) w1 w2 :
  heap w1 = heap w2 → calls w1 = calls w2 → stdout w1 = stdout w2 →
  evolve toolbox ngen mu entropy1 (Some s) w1 = evolve toolbox ngen mu entropy2 (Some s) w2
  ∧ main toolbox entropy1 (Some s) w1 = main toolbox entropy2 (Some s) w2.
Proof.
  intros Hheap Hcalls Hout.
  assert (H : ∀ n m, evolve toolbox n m entropy1 (Some s) w1
                     = evolve toolbox n m entropy2 (Some s) w2).
  { intros n m. unfold evolve.
    rewrite (bind_ok _ _ _ _ _ (random_seed_run entropy1 s w1)).
    rewrite (bind_ok _ _ _ _ _ (random_seed_run entropy2 s w2)).
    now rewrite Hheap, Hcalls, Hout. }
  split; [apply H|apply (H NGEN MU)].
Qed.

End Properties.

(** * Further properties *)

(** ** [uniform] and the initial population *)

Lemma SFmul_comm (x y : spec_float) : SFmul prec emax x y = SFmul prec emax y x.
Proof.
  destruct x as [[]|[]| |[] m e], y as [[]|[]| |[] m' e']; try reflexivity;
    cbn [SFmul xorb]; now rewrite Pos.mul_comm, Z.add_comm.
Qed.

Lemma float_mul_1_l (x : float) : (1 * x)%float = x.
Proof.
  rewrite <- (float_mul_1_r x) at 2. apply Prim2SF_inj.
  rewrite !mul_spec. apply SFmul_comm.
Qed.

(** Adding to zero keeps a number of [0, 1) in [0, 1): the number itself,
    or zero for the negative zero. *)
Lemma unit_interval_add_0 (r : float) : unit_interval r → unit_interval (0 + r)%float.
Proof.
  unfold unit_interval. rewrite !FloatAxioms.leb_spec, !FloatAxioms.ltb_spec, add_spec.
  change (Prim2SF 0) with (S754_zero false).
  change (Prim2SF 1) with (S754_finite false two52 (-52)).
  now destruct (Prim2SF r) as [[]|[]| |[] m e].
Qed.

Lemma unit_interval_gene (r : float) :
  unit_interval r → unit_interval (BOUND_LOW + (BOUND_UP - BOUND_LOW) * r)%float.
Proof.
  intros H. change (BOUND_UP - BOUND_LOW)%float with 1%float.
  rewrite float_mul_1_l. now apply unit_interval_add_0.
Qed.

Section Initialization.
Context {Rng : Type} (toolbox : Toolbox Rng).
Implicit Types (w : World Rng) (h : list Individual).

Lemma set_rng_id w : set_rng (rng w) w = w.
Proof. now destruct w. Qed.

Lemma random_uniform_run a b w :
  random_uniform toolbox a b w =
  (Ok (a + (b - a) * (random (py toolbox) (rng w)).1)%float,
   set_rng (random (py toolbox) (rng w)).2 w).
Proof.
  unfold random_uniform, mbind, Py_bind, with_rng.
  now destruct (random (py toolbox) (rng w)).
Qed.

Lemma uniform_pairs_run (bounds : list (float * float)) w :
  let d := draws (random (py toolbox)) (length bounds) (rng w) in
  mapM (λ ab, random_uniform toolbox ab.1 ab.2) bounds w =
  (Ok (zip_with (λ ab r, ab.1 + (ab.2 - ab.1) * r)%float bounds d.1), set_rng d.2 w).
Proof.
  revert w. induction bounds as [|ab bounds IH]; intros w; cbn [length draws].
  - cbn. now rewrite set_rng_id.
  - rewrite mapM_cons_run, random_uniform_run.
    destruct (random (py toolbox) (rng w)) as [r g'] eqn:E. cbn [fst snd].
    rewrite IH. cbn [rng set_rng].
    destruct (draws (random (py toolbox)) (length bounds) g') as [rs g'']. reflexivity.
Qed.

Lemma draws_length (rnd : Rng → float * Rng) n g : length (draws rnd n g).1 = n.
Proof.
  revert g. induction n as [|n IH]; intros g; cbn; [reflexivity|].
  destruct (rnd g) as [r g']. specialize (IH g').
  destruct (draws rnd n g') as [rs g'']. cbn in *. now rewrite IH.
Qed.

Lemma draws_unit_interval (rnd : Rng → float * Rng) n g :
  (∀ g, unit_interval (rnd g).1) → Forall unit_interval (draws rnd n g).1.
Proof.
  intros H. revert g. induction n as [|n IH]; intros g; cbn; [constructor|].
  pose proof (H g) as Hg. destruct (rnd g) as [r g']. specialize (IH g').
  destruct (draws rnd n g') as [rs g'']. now constructor.
Qed.

Lemma zip_with_replicate (a b : float) (rs : list float) n :
  length rs = n →
  zip_with (λ (ab : float * float) r, ab.1 + (ab.2 - ab.1) * r)%float
    (zip (replicate n a) (replicate n b)) rs
  = map (λ r, a + (b - a) * r)%float rs.
Proof.
  revert rs. induction n as [|n IH]; intros [|r rs] H; try discriminate; [reflexivity|].
  cbn. f_equal. apply IH. now injection H.
Qed.

Lemma uniform_floats_run (a b : float) (n : nat) w :
  let d := draws (random (py toolbox)) n (rng w) in
  uniform toolbox (BFloat a) (BFloat b) (Some n) w
  = (Ok (map (λ r, a + (b - a) * r)%float d.1), set_rng d.2 w).
Proof.
  intros d. unfold uniform. rewrite uniform_pairs_run.
  rewrite length_zip_with, !length_replicate, Nat.min_id. fold d.
  rewrite zip_with_replicate; [reflexivity|apply draws_length].
Qed.

Lemma uniform_sequences_run (ls us : list float) (size : option nat) w :
  let d := draws (random (py toolbox)) (length ls `min` length us) (rng w) in
  uniform toolbox (BSeq ls) (BSeq us) size w
  = (Ok (zip_with (λ ab r, ab.1 + (ab.2 - ab.1) * r)%float (zip ls us) d.1),
     set_rng d.2 w).
Proof.
  intros d. unfold uniform. rewrite uniform_pairs_run.
  now rewrite length_zip_with.
Qed.

(** X1: with two floats as bounds and a size [n], [uniform] returns [n]
    numbers, the [i]-th one [a + (b - a) * r] for the [i]-th draw [r] of
    [random.random()], and it makes exactly [n] draws and changes nothing
    else. *)
Theorem uniform_floats (a b : float) (n : nat) w :
  let d := draws (random (py toolbox)) n (rng w) in
  uniform toolbox (BFloat a) (BFloat b) (Some n) w
  = (Ok (map (λ r, a + (b - a) * r)%float d.1), set_rng d.2 w)
  ∧ length (map (λ r, a + (b - a) * r)%float d.1) = n.
Proof.
  intros d. split; [apply uniform_floats_run|].
  unfold d. now rewrite length_map, draws_length.
Qed.

(** X2: with two sequences as bounds, [uniform] never fails and ignores
    [size]: it returns as many numbers as the shorter sequence has, the
    [i]-th one drawn between the [i]-th bounds, after as many draws. *)
Theorem uniform_sequences (ls us : list float) (size : option nat) w :
  let n := length ls `min` length us in
  let d := draws (random (py toolbox)) n (rng w) in
  ∃ vs, uniform toolbox (BSeq ls) (BSeq us) size w = (Ok vs, set_rng d.2 w) ∧
    length vs = n ∧
    ∀ i lo up r, ls !! i = Some lo → us !! i = Some up → d.1 !! i = Some r →
      vs !! i = Some (lo + (up - lo) * r)%float.
Proof.
  intros n d. eexists. split; [apply uniform_sequences_run|]. fold n d. split.
  - rewrite !length_zip_with. unfold d. rewrite draws_length. fold n. lia.
  - intros i lo up r Hl Hu Hr. rewrite lookup_zip_with, lookup_zip_with, Hl, Hu, Hr.
    reflexivity.
Qed.


(** X4: when [random.random()] returns numbers of [0, 1), the initializer
    [attr_float] returns [NDIM] decision variables, every one of them within
    the bounds of the problem: at least [BOUND_LOW] and below [BOUND_UP]. *)
Theorem attr_float_genes w :
  (∀ g, unit_interval (random (py toolbox) g).1) →
  ∃ genes g', attr_float toolbox w = (Ok genes, set_rng g' w) ∧
    length genes = NDIM ∧
    Forall (λ x, (BOUND_LOW <=? x)%float = true ∧ (x <? BOUND_UP)%float = true) genes.
Proof.
  intros H. unfold attr_float.
  eexists _, _. split; [apply uniform_floats_run|].
  split; [now rewrite length_map, draws_length|].
  apply Forall_fmap. eapply Forall_impl; [now apply draws_unit_interval|].
  intros r Hr. now apply unit_interval_gene.
Qed.

Lemma individual_run w :
  ∃ genes g',
    individual toolbox w
    = (Ok (length (heap w)),
       mkWorld (heap w ++ [new_Individual genes]) g' (calls w) (stdout w))
    ∧ length genes = NDIM.
Proof.
  eexists _, _. unfold individual, attr_float.
  rewrite (bind_ok _ _ _ _ _ (uniform_floats_run BOUND_LOW BOUND_UP NDIM w)).
  split; [reflexivity|]. now rewrite length_map, draws_length.
Qed.

Lemma population_run {A} (ks : list A) w :
  ∃ inds w',
    mapM (λ _, individual toolbox) ks w
    = (Ok (seq (length (heap w)) (length ks)), w') ∧
    heap w' = heap w ++ inds ∧ calls w' = calls w ∧ stdout w' = stdout w ∧
    length inds = length ks ∧
    Forall (λ ind, ∃ genes, ind = new_Individual genes ∧ length genes = NDIM) inds.
Proof.
  revert w. induction ks as [|k ks IH]; intros w.
  - exists [], w. cbn. now rewrite app_nil_r.
  - destruct (individual_run w) as (genes & g' & Hrun & Hlen).
    set (w1 := mkWorld _ _ _ _) in Hrun.
    destruct (IH w1) as (inds & w' & Hrest & Hheap & Hcalls & Hout & Hn & Hall).
    exists (new_Individual genes :: inds), w'.
    rewrite mapM_cons_run, Hrun, Hrest. cbn [heap w1] in *.
    rewrite length_app, Nat.add_1_r. split; [reflexivity|].
    split; [now rewrite Hheap, <- app_assoc|].
    split; [exact Hcalls|]. split; [exact Hout|].
    split; [cbn; now rewrite Hn|]. constructor; [now exists genes|exact Hall].
Qed.

(** X5: [toolbox.population(n)] never fails; it returns [n] new, distinct
    objects, allocated after the ones that were there, which it leaves as
    they were; every new individual has [NDIM] decision variables and both
    its fitnesses invalid; no collaborator is called and nothing is
    printed. *)
Theorem population_new_individuals (n : nat) w :
  ∃ inds w',
    population toolbox n w = (Ok (seq (length (heap w)) n), w') ∧
    heap w' = heap w ++ inds ∧ calls w' = calls w ∧ stdout w' = stdout w ∧
    length inds = n ∧
    Forall (λ ind, length (genome ind) = NDIM ∧ valid (fitness ind) = false
                   ∧ valid (fitness_hv ind) = false) inds.
Proof.
  destruct (population_run (seq 0 n) w) as (inds & w' & Hrun & Hheap & Hc & Ho & Hn & Hall).
  rewrite length_seq in Hrun, Hn. exists inds, w'. unfold population.
  split; [exact Hrun|]. split; [exact Hheap|]. split; [exact Hc|].
  split; [exact Ho|]. split; [exact Hn|].
  eapply Forall_impl; [exact Hall|]. cbn. intros ind (genes & -> & Hg). now cbn.
Qed.

End Initialization.

(** ** The evaluation of the individuals with an invalid fitness *)

Section Evaluation.
Context {Rng : Type} (toolbox : Toolbox Rng).
Implicit Types (w : World Rng) (h : list Individual).

Lemma evaluation_frame_refl (S : loc → Prop) w : evaluation_frame S w w.
Proof. repeat split. intros l ind H. now exists ind. Qed.

Lemma evaluation_frame_trans (S1 S2 S : loc → Prop) w1 w2 w3 :
  (∀ l, S1 l → S l) → (∀ l, S2 l → S l) →
  evaluation_frame S1 w1 w2 → evaluation_frame S2 w2 w3 → evaluation_frame S w1 w3.
Proof.
  intros H1 H2 (L1 & R1 & C1 & O1 & F1) (L2 & R2 & C2 & O2 & F2).
  split; [congruence|]. split; [congruence|]. split; [congruence|].
  split; [congruence|]. intros l ind Hl.
  destruct (F1 l ind Hl) as (ind1 & Hl1 & G1 & V1 & E1).
  destruct (F2 l ind1 Hl1) as (ind2 & Hl2 & G2 & V2 & E2).
  exists ind2. split; [exact Hl2|]. split; [congruence|]. split; [congruence|].
  intros Hn. rewrite E2, E1; auto.
Qed.

Lemma invalid_zip (h : list Individual) (pop : list loc) (inds : list Individual) :
  Forall2 (λ l ind, h !! l = Some ind) pop inds →
  (filter (λ p : loc * Individual, negb (valid (fitness p.2))) (zip pop inds)).*1
  = filter (λ l, is_invalid h l) pop.
Proof.
  induction 1 as [|l ind pop inds Hl _ IH]; [reflexivity|].
  assert (Hiff : is_invalid h l = negb (valid (fitness ind)))
    by (unfold is_invalid; now rewrite Hl).
  cbn [zip zip_with]. destruct (negb (valid (fitness ind))) eqn:E.
  - rewrite filter_cons_True by (apply Is_true_true; exact E).
    rewrite (filter_cons_True (λ l, is_invalid h l)) by (apply Is_true_true; exact Hiff).
    cbn. now rewrite IH.
  - rewrite filter_cons_False by (apply Is_true_false; exact E).
    rewrite (filter_cons_False (λ l, is_invalid h l)) by (apply Is_true_false; exact Hiff).
    exact IH.
Qed.

Lemma filter_all (P : loc → bool) (ls : list loc) :
  Forall (λ l, P l = true) ls → filter (λ l, P l) ls = ls.
Proof.
  induction 1 as [|l ls Hl _ IH]; [reflexivity|].
  rewrite filter_cons_True by (apply Is_true_true; exact Hl). now rewrite IH.
Qed.

Lemma filter_none (P : loc → bool) (ls : list loc) :
  Forall (λ l, P l = false) ls → filter (λ l, P l) ls = [].
Proof.
  induction 1 as [|l ls Hl _ IH]; [reflexivity|].
  now rewrite filter_cons_False by (apply Is_true_false; exact Hl).
Qed.

Lemma evaluate_each (ls : list loc) w :
  Forall (λ l, l < length (heap w)) ls →
  ∃ w', for_each (λ l, ind ← read l;
            write l (with_fitness (set_values FitnessMin (evaluate toolbox ind)) ind))
          ls w = (Ok (), w') ∧
    evaluation_frame (λ l, l ∈ ls) w w' ∧
    ∀ l ind, l ∈ ls → heap w !! l = Some ind →
      ∃ x, genome x = genome ind ∧ fitness_hv x = fitness_hv ind ∧
        (NoDup ls → x = ind) ∧
        heap w' !! l
        = Some (with_fitness (set_values FitnessMin (evaluate toolbox x)) ind).
Proof.
  revert w. induction ls as [|l0 ls IH]; intros w Hls.
  - exists w. split; [reflexivity|]. split; [apply evaluation_frame_refl|].
    intros l ind Hl. now apply elem_of_nil in Hl.
  - apply Forall_cons in Hls as [Hlt Hls].
    destruct (lookup_lt_is_Some_2 _ _ Hlt) as [ind0 Hind0].
    rewrite for_each_cons_run, (bind_ok _ _ _ _ _ (read_ok _ _ _ Hind0)).
    unfold write. cbv beta iota.
    match goal with |- context [for_each _ ls ?w1] => set (w1' := w1) end.
    assert (Hstep : evaluation_frame (λ l, l = l0) w w1').
    { split; [cbn; now rewrite length_insert|]. repeat (split; [reflexivity|]).
      intros l ind Hl. cbn. destruct (decide (l = l0)) as [->|Hne].
      - rewrite Hind0 in Hl. injection Hl as <-. eexists.
        split; [now apply list_lookup_insert_eq|]. cbn. tauto.
      - exists ind. rewrite list_lookup_insert_ne by congruence. tauto. }
    destruct (IH w1') as (w' & Hrun & Hfr & Hpost).
    { cbn. now rewrite length_insert. }
    exists w'. split; [exact Hrun|]. split.
    + eapply evaluation_frame_trans; [| |exact Hstep|exact Hfr].
      * intros l ->. apply list_elem_of_here.
      * intros l Hl. now apply list_elem_of_further.
    + intros l ind Hl Hind. destruct (decide (l ∈ ls)) as [Hin|Hnin].
      * destruct (decide (l = l0)) as [->|Hne].
        -- rewrite Hind0 in Hind. injection Hind as <-.
           destruct (Hpost l0
                       (with_fitness (set_values FitnessMin (evaluate toolbox ind0)) ind0)
                       Hin) as (x & Hg & Hv & _ & Hx).
           { cbn. now apply list_lookup_insert_eq. }
           exists x. split; [exact Hg|]. split; [exact Hv|]. split; [|exact Hx].
           intros Hnd. apply NoDup_cons in Hnd as [Hnd _]. contradiction.
        -- destruct (Hpost l ind Hin) as (x & Hg & Hv & Hnd & Hx).
           { cbn. now rewrite list_lookup_insert_ne by congruence. }
           exists x. split; [exact Hg|]. split; [exact Hv|]. split; [|exact Hx].
           intros Hnd'. apply NoDup_cons in Hnd' as [_ Hnd']. now apply Hnd.
      * apply elem_of_cons in Hl as [->|Hl]; [|contradiction].
        rewrite Hind0 in Hind. injection Hind as <-.
        destruct Hfr as (_ & _ & _ & _ & Hfr).
        destruct (Hfr l0 (with_fitness (set_values FitnessMin (evaluate toolbox ind0)) ind0))
          as (ind' & Hl' & _ & _ & Heq).
        { cbn. now apply list_lookup_insert_eq. }
        rewrite (Heq Hnin) in Hl'. exists ind0. now split.
Qed.

(** The evaluation is the loop over the invalid individuals of the
    population, in their order. *)
Lemma evaluate_invalid_filter (pop : list loc) w :
  Forall (λ l, l < length (heap w)) pop →
  let ls := filter (λ l, is_invalid (heap w) l) pop in
  ∃ w',
    evaluate_invalid toolbox pop w = (Ok (length ls), w') ∧
    evaluation_frame (λ l, l ∈ ls) w w' ∧
    ∀ l ind, l ∈ ls → heap w !! l = Some ind →
      ∃ x, genome x = genome ind ∧ fitness_hv x = fitness_hv ind ∧
        (NoDup ls → x = ind) ∧
        heap w' !! l
        = Some (with_fitness (set_values FitnessMin (evaluate toolbox x)) ind).
Proof.
  intros Hpop ls. destruct (mapM_read_run pop w Hpop) as (inds & Hread & F).
  unfold evaluate_invalid. rewrite (bind_ok _ _ _ _ _ Hread).
  change (map fst ?l) with (l.*1). rewrite (invalid_zip _ _ _ F). fold ls.
  assert (Hls : Forall (λ l, l < length (heap w)) ls).
  { apply Forall_forall. intros l Hl. unfold ls in Hl.
    apply list_elem_of_filter in Hl as [_ Hl].
    rewrite Forall_forall in Hpop. now apply Hpop. }
  destruct (evaluate_each ls w Hls) as (w' & Hrun & Hfr & Hpost).
  exists w'. rewrite (bind_ok _ _ _ _ _ Hrun). now split.
Qed.

(** X6: on a population of objects the evaluation never fails; it returns
    the number of entries of the population whose fitness is invalid; it
    creates no object, draws no number, calls no collaborator, prints
    nothing, leaves the decision variables and the secondary fitness of
    every object, and the objects that are not invalid individuals of the
    population, as they were; every invalid individual of the population
    ends as it was but for its fitness, which holds the objectives that the
    evaluator returns for this very individual: for the individual as it
    was when no object is twice in the population, and otherwise for the
    individual with its decision variables, possibly evaluated once
    already. *)
Theorem evaluate_invalid_counts (pop : list loc) w :
  Forall (λ l, l < length (heap w)) pop →
  ∃ w',
    evaluate_invalid toolbox pop w
    = (Ok (length (filter (λ l, is_invalid (heap w) l) pop)), w') ∧
    evaluation_frame (λ l, l ∈ pop ∧ is_invalid (heap w) l = true) w w' ∧
    ∀ l ind, l ∈ pop → heap w !! l = Some ind → valid (fitness ind) = false →
      ∃ x, genome x = genome ind ∧ fitness_hv x = fitness_hv ind ∧
        (NoDup pop → x = ind) ∧
        heap w' !! l
        = Some (with_fitness (set_values FitnessMin (evaluate toolbox x)) ind).
Proof.
  intros Hpop. destruct (evaluate_invalid_filter pop w Hpop) as (w' & Hrun & Hfr & Hpost).
  assert (Hin : ∀ l, l ∈ filter (λ l, is_invalid (heap w) l) pop
                     ↔ l ∈ pop ∧ is_invalid (heap w) l = true).
  { intros l. rewrite list_elem_of_filter, Is_true_true. tauto. }
  exists w'. split; [exact Hrun|]. split.
  - eapply evaluation_frame_trans;
      [| |apply (evaluation_frame_refl (λ _, False))|exact Hfr]; [contradiction|].
    intros l Hl. now apply Hin.
  - intros l ind Hl Hind Hinv.
    destruct (Hpost l ind) as (x & Hg & Hv & Hnd & Hx); [|exact Hind|].
    { apply Hin. split; [exact Hl|]. unfold is_invalid. now rewrite Hind, Hinv. }
    exists x. split; [exact Hg|]. split; [exact Hv|]. split; [|exact Hx].
    intros Hpopnd. apply Hnd. now apply NoDup_filter.
Qed.

Lemma valid_set_values (vs : list float) :
  vs ≠ [] → valid (set_values FitnessMin vs) = true.
Proof. destruct vs; [contradiction|reflexivity]. Qed.

(** X7: when the evaluator returns at least one objective, every
    individual of an evaluated population has a valid fitness, and
    evaluating the population again evaluates nothing: it returns 0 and
    leaves the world as it is. *)
Theorem evaluate_invalid_twice (pop : list loc) w :
  Forall (λ l, l < length (heap w)) pop →
  (∀ ind, evaluate toolbox ind ≠ []) →
  ∃ n w',
    evaluate_invalid toolbox pop w = (Ok n, w') ∧
    Forall (λ l, is_invalid (heap w') l = false) pop ∧
    evaluate_invalid toolbox pop w' = (Ok 0, w').
Proof.
  intros Hpop Hev.
  destruct (evaluate_invalid_filter pop w Hpop) as (w' & Hrun & Hfr & Hpost).
  assert (Hvalid : Forall (λ l, is_invalid (heap w') l = false) pop).
  { apply Forall_forall. intros l Hl.
    destruct (is_invalid (heap w) l) eqn:E.
    - assert (Hobj : ∃ ind, heap w !! l = Some ind).
      { unfold is_invalid in E. destruct (heap w !! l) as [ind|]; [now exists ind|].
        discriminate. }
      destruct Hobj as [ind Hind].
      destruct (Hpost l ind) as (x & _ & _ & _ & Hl'); [|exact Hind|].
      { apply list_elem_of_filter. split; [now apply Is_true_true|exact Hl]. }
      unfold is_invalid. rewrite Hl'. cbn [fitness with_fitness].
      now rewrite valid_set_values.
    - destruct Hfr as (_ & _ & _ & _ & Hfr). unfold is_invalid in *.
      destruct (heap w !! l) as [ind|] eqn:El.
      + destruct (Hfr l ind El) as (ind' & Hl' & _ & _ & Heq).
        rewrite Hl', Heq; [exact E|]. intros [H _]%list_elem_of_filter.
        apply Is_true_true in H. unfold is_invalid in H.
        rewrite El in H. congruence.
      + apply lookup_ge_None in El. rewrite Forall_forall in Hpop.
        specialize (Hpop l Hl). lia. }
  eexists _, w'. split; [exact Hrun|]. split; [exact Hvalid|].
  assert (Hpop' : Forall (λ l, l < length (heap w')) pop).
  { destruct Hfr as (Hlen & _). now rewrite Hlen. }
  destruct (mapM_read_run pop w' Hpop') as (inds & Hread & F).
  unfold evaluate_invalid. rewrite (bind_ok _ _ _ _ _ Hread).
  change (map fst ?l) with (l.*1). rewrite (invalid_zip _ _ _ F).
  now rewrite (filter_none _ _ Hvalid).
Qed.

(** X8: the first evaluation of [main] evaluates the whole initial
    population: after [toolbox.population(n)], the evaluation of the
    invalid individuals returns [n], the number of evaluations that the
    logbook records for generation 0. *)
Theorem initial_evaluation (n : nat) w :
  ∃ pop w1 w2,
    population toolbox n w = (Ok pop, w1) ∧ length pop = n ∧
    evaluate_invalid toolbox pop w1 = (Ok n, w2).
Proof.
  destruct (population_run toolbox (seq 0 n) w)
    as (inds & w1 & Hrun & Hheap & _ & _ & Hn & Hall).
  rewrite length_seq in Hrun, Hn.
  set (pop := seq (length (heap w)) n) in *.
  assert (Hpop : Forall (λ l, l < length (heap w1)) pop).
  { apply Forall_forall. intros l Hl%elem_of_seq. rewrite Hheap, length_app. lia. }
  destruct (evaluate_invalid_filter pop w1 Hpop) as (w2 & Heval & _).
  exists pop, w1, w2. split; [exact Hrun|]. split; [apply length_seq|].
  rewrite Heval. do 2 f_equal.
  assert (Hinv : Forall (λ l, is_invalid (heap w1) l = true) pop).
  { apply Forall_forall. intros l Hl%elem_of_seq. unfold is_invalid.
    rewrite Hheap, lookup_app_r by lia.
    destruct (lookup_lt_is_Some_2 inds (l - length (heap w))) as [ind Hind]; [lia|].
    rewrite Hind. rewrite Forall_forall in Hall.
    destruct (Hall ind) as (genes & -> & _); [eapply list_elem_of_lookup_2, Hind|].
    reflexivity. }
  rewrite (filter_all _ _ Hinv). apply length_seq.
Qed.

End Evaluation.

(** ** The parts of the world that a stage leaves alone *)

Section Unchanged.
Context {Rng B : Type} (toolbox : Toolbox Rng) (field : World Rng → B).
Hypothesis field_heap : ∀ h (w : World Rng), field (set_heap h w) = field w.
Hypothesis field_rng : ∀ g (w : World Rng), field (set_rng g w) = field w.

#[local] Instance unchanged_preorder : PreOrder (unchanged field).
Proof.
  split; [intros w; reflexivity|].
  intros w1 w2 w3 H1 H2. unfold unchanged in *. congruence.
Qed.

Lemma unchanged_write l ind : steps (unchanged field) (write l ind : Py Rng unit).
Proof. intros w. apply (field_heap (<[l := ind]> (heap w)) w). Qed.

Lemma unchanged_alloc ind : steps (unchanged field) (alloc ind : Py Rng loc).
Proof. intros w. apply (field_heap (heap w ++ [ind]) w). Qed.

Lemma unchanged_with_rng {A} (f : Rng → A * Rng) :
  steps (unchanged field) (with_rng f).
Proof.
  intros w. unfold with_rng. destruct (f (rng w)) as [a g]. apply (field_rng g w).
Qed.

Lemma unchanged_update l (f : Individual → Individual) :
  steps (unchanged field) (ind ← read l; write l (f ind) : Py Rng unit).
Proof.
  apply steps_bind; [apply _|apply steps_read; apply _|].
  intros ind. apply unchanged_write.
Qed.

Lemma unchanged_operator l (op : Individual → Rng → Individual * Rng) :
  steps (unchanged field) (ind ← read l; m ← with_rng (op ind); write l m : Py Rng unit).
Proof.
  apply steps_bind; [apply _|apply steps_read; apply _|intros ind].
  apply steps_bind; [apply _|apply unchanged_with_rng|intros m].
  apply unchanged_write.
Qed.

Lemma unchanged_vary_pair p : steps (unchanged field) (vary_pair toolbox p).
Proof.
  unfold vary_pair.
  apply steps_bind; [apply _|apply unchanged_with_rng|intros r].
  apply steps_bind; [apply _| |intros ?].
  { destruct (r <=? CXPB)%float; [|apply steps_ret; apply _].
    apply steps_bind; [apply _|apply steps_read; apply _|intros ind1].
    apply steps_bind; [apply _|apply steps_read; apply _|intros ind2].
    apply steps_bind; [apply _|apply unchanged_with_rng|intros m].
    apply steps_bind; [apply _|apply unchanged_write|intros ?].
    apply unchanged_write. }
  apply steps_bind; [apply _|apply unchanged_operator|intros ?].
  apply steps_bind; [apply _|apply unchanged_operator|intros ?].
  apply steps_bind; [apply _|apply unchanged_update|intros ?].
  apply unchanged_update.
Qed.

Lemma unchanged_vary pop : steps (unchanged field) (vary toolbox pop).
Proof.
  unfold vary, clone_offspring.
  apply steps_bind; [apply _| |intros offspring].
  { apply steps_bind; [apply _|apply unchanged_with_rng|intros sel].
    apply steps_mapM; [apply _|]. intros l.
    apply steps_bind; [apply _|apply steps_read; apply _|].
    intros ind. apply unchanged_alloc. }
  apply steps_bind; [apply _| |intros ?; apply steps_ret; apply _].
  apply steps_for_each_in; [apply _|]. intros p _. apply unchanged_vary_pair.
Qed.

Lemma unchanged_evaluate_invalid pop :
  steps (unchanged field) (evaluate_invalid toolbox pop).
Proof.
  unfold evaluate_invalid.
  apply steps_bind; [apply _| |intros inds].
  { apply steps_mapM; [apply _|]. intros l. apply steps_read; apply _. }
  apply steps_bind; [apply _| |intros ?; apply steps_ret; apply _].
  apply steps_for_each_in; [apply _|]. intros l _.
  apply (unchanged_update l
           (λ ind, with_fitness (set_values FitnessMin (evaluate toolbox ind)) ind)).
Qed.

Lemma unchanged_stats_compile pop :
  steps (unchanged field) (stats_compile pop : Py Rng StatRecord).
Proof.
  unfold stats_compile.
  apply steps_bind; [apply _| |intros data].
  { apply steps_mapM; [apply _|]. intros l.
    apply steps_bind; [apply _|apply steps_read; apply _|].
    intros ind. apply steps_ret; apply _. }
  apply steps_bind; [apply _|apply steps_lift; apply _|intros arr].
  apply steps_bind; [apply _|apply steps_lift; apply _|intros mn].
  apply steps_bind; [apply _|apply steps_lift; apply _|intros mx].
  apply steps_ret; apply _.
Qed.

End Unchanged.

(** ** The variation *)

Section Variation.
Context {Rng : Type} (toolbox : Toolbox Rng).
Implicit Types (w : World Rng) (h : list Individual).

Lemma unpairs_length {A} (ps : list (A * A)) : length (unpairs ps) = 2 * length ps.
Proof. induction ps as [|p ps IH]; cbn; [reflexivity|]. rewrite IH. lia. Qed.

(** X9: the pairs [zip(offspring[::2], offspring[1::2])] that the
    variation loops over are the pairs of consecutive offspring: there are
    [len(offspring) // 2] of them and their members, in order, are the
    offspring but the last one of a list of odd length. *)
Theorem offspring_pairs {A} (l : list A) :
  let pairs := zip (every_other l) (every_other (drop 1 l)) in
  length pairs = length l / 2 ∧
  unpairs pairs = take (2 * (length l / 2)) l.
Proof.
  intros pairs. unfold pairs. rewrite zip_every_other.
  pose proof (unpairs_pairs_of l) as H. split; [|exact H].
  apply (f_equal length) in H. rewrite unpairs_length, length_take in H.
  pose proof (Nat.div_mod_eq (length l) 2). lia.
Qed.

Lemma vary_heap (pop : list loc) w :
  Forall (λ l, l < length (heap w)) pop →
  let sel := (draw toolbox (length pop) pop (rng w)).1 in
  let offspring := seq (length (heap w)) (length pop) in
  ∃ inds w',
    vary toolbox pop w = (Ok offspring, w') ∧
    Forall2 (λ l ind, heap w !! l = Some ind) sel inds ∧
    length (heap w') = length (heap w) + length pop ∧
    (∀ l, l ∉ take (2 * (length pop / 2)) offspring →
       heap w' !! l = (heap w ++ inds) !! l).
Proof.
  intros Hpop sel offspring.
  destruct (clone_offspring_run toolbox pop w Hpop) as (inds & w1 & Hrun & F & Hheap).
  fold sel in Hrun, F.
  assert (Hperm : sel ≡ₚ pop) by (apply draw_perm; lia).
  rewrite (Permutation_length Hperm) in Hrun. fold offspring in Hrun.
  assert (Hlen1 : length (heap w1) = length (heap w) + length pop).
  { rewrite Hheap, length_app, <- (Forall2_length _ _ _ F).
    now rewrite (Permutation_length Hperm). }
  pose proof (unpairs_pairs_of offspring) as Hun.
  unfold offspring in Hun at 2. rewrite length_seq in Hun. fold offspring in Hun.
  assert (Hsubl : unpairs (pairs_of offspring) `sublist_of` offspring).
  { rewrite Hun. apply sublist_take. }
  assert (Hnd : NoDup (unpairs (pairs_of offspring))).
  { eapply sublist_NoDup; [apply NoDup_seq|exact Hsubl]. }
  assert (Hps : Forall (λ p : loc * loc, p.1 < length (heap w1) ∧ p.2 < length (heap w1))
                  (pairs_of offspring)).
  { assert (Hall : Forall (λ l, l < length (heap w1)) (unpairs (pairs_of offspring))).
    { apply Forall_forall. intros l Hl.
      apply (λ H, elem_of_sublist _ _ _ H Hsubl), elem_of_seq in Hl. lia. }
    revert Hall. generalize (pairs_of offspring).
    induction l as [|p ps IH]; cbn; intros Hall; [constructor|].
    apply Forall_cons in Hall as [H1 Hall]. apply Forall_cons in Hall as [H2 Hall].
    constructor; [split; assumption|now apply IH]. }
  destruct (pairs_loop toolbox _ _ Hps Hnd w1 eq_refl I) as ([] & w2 & Hrun2 & Hlen2 & Hfr & _).
  exists inds, w2. unfold vary. rewrite (bind_ok _ _ _ _ _ Hrun), zip_every_other.
  rewrite (bind_ok _ _ _ _ _ Hrun2). split; [reflexivity|]. split; [exact F|].
  split; [lia|]. intros l Hl. rewrite <- Hun in Hl. rewrite (Hfr l Hl). now rewrite Hheap.
Qed.

(** X10: the variation works on copies: on a population of objects it
    never fails and returns as many new objects, allocated after the ones
    that were there; whatever the crossover and the mutation do to the
    offspring, every object that was there, the parents among them, is what
    it was; no collaborator is called and nothing is printed. *)
Theorem vary_keeps_population (pop : list loc) w :
  Forall (λ l, l < length (heap w)) pop →
  ∃ w',
    vary toolbox pop w = (Ok (seq (length (heap w)) (length pop)), w') ∧
    length (heap w') = length (heap w) + length pop ∧
    (∀ l, l < length (heap w) → heap w' !! l = heap w !! l) ∧
    calls w' = calls w ∧ stdout w' = stdout w.
Proof.
  intros Hpop. destruct (vary_heap pop w Hpop) as (inds & w' & Hrun & _ & Hlen & Hfr).
  exists w'. split; [exact Hrun|]. split; [exact Hlen|]. split; [|split].
  - intros l Hl. rewrite Hfr; [now apply lookup_app_l|].
    intros Hin. eapply elem_of_sublist in Hin; [|apply sublist_take].
    apply elem_of_seq in Hin. lia.
  - pose proof (unchanged_vary toolbox calls (λ _ _, eq_refl) (λ _ _, eq_refl) pop w) as H.
    now rewrite Hrun in H.
  - pose proof (unchanged_vary toolbox stdout (λ _ _, eq_refl) (λ _ _, eq_refl) pop w) as H.
    now rewrite Hrun in H.
Qed.

Lemma invalid_at_is_invalid w l : invalid_at w l → is_invalid (heap w) l = true.
Proof. intros (ind & H & V). unfold is_invalid. now rewrite H, V. Qed.

(** X11: in a population of odd size the last offspring is in no pair: it
    is the unchanged copy of one of the parents, neither mated nor mutated
    nor invalidated, so that, when the parents have valid fitnesses, the
    evaluation that follows evaluates every offspring but this one. *)
Theorem vary_odd_population (pop : list loc) w :
  Forall (λ l, l < length (heap w)) pop →
  Nat.Odd (length pop) →
  ∃ offspring w' o p ind,
    vary toolbox pop w = (Ok offspring, w') ∧
    last offspring = Some o ∧ p ∈ pop ∧
    heap w !! p = Some ind ∧ heap w' !! o = Some ind ∧
    (Forall (λ l, is_invalid (heap w) l = false) pop →
     ∃ w'', evaluate_invalid toolbox offspring w' = (Ok (length pop - 1), w'')).
Proof.
  intros Hpop [k Hk].
  destruct (vary_heap pop w Hpop) as (inds & w' & Hrun & F & Hlen & Hfr).
  destruct (vary_run toolbox pop w Hpop) as (w0 & Hrun0 & _ & Hinv).
  rewrite Hrun in Hrun0. injection Hrun0 as <-.
  set (sel := (draw toolbox (length pop) pop (rng w)).1) in *.
  assert (Hperm : sel ≡ₚ pop) by (apply draw_perm; lia).
  assert (Hhalf : 2 * (length pop / 2) = 2 * k).
  { rewrite Hk. rewrite (Nat.mul_comm 2 k), Nat.div_add_l by lia. cbn. lia. }
  rewrite Hhalf in Hfr, Hinv.
  set (n0 := length (heap w)) in *.
  assert (Hseq : seq n0 (length pop) = seq n0 (2 * k) ++ [n0 + 2 * k]).
  { rewrite Hk, seq_app. reflexivity. }
  rewrite Hseq in *. rewrite take_app_length' in Hfr, Hinv by now rewrite length_seq.
  destruct (lookup_lt_is_Some_2 inds (2 * k)) as [ind Hind].
  { rewrite <- (Forall2_length _ _ _ F), (Permutation_length Hperm). lia. }
  destruct (Forall2_lookup_r _ _ _ _ _ F Hind) as (p & Hp & Hlook).
  assert (Ho : heap w' !! (n0 + 2 * k) = Some ind).
  { rewrite Hfr by (rewrite elem_of_seq; lia).
    rewrite lookup_app_r by (unfold n0; lia).
    now replace (n0 + 2 * k - length (heap w)) with (2 * k) by (unfold n0; lia). }
  exists (seq n0 (2 * k) ++ [n0 + 2 * k]), w', (n0 + 2 * k), p, ind.
  split; [exact Hrun|]. split; [apply last_snoc|].
  assert (Hin : p ∈ pop) by (rewrite <- Hperm; eapply list_elem_of_lookup_2, Hp).
  split; [exact Hin|]. split; [exact Hlook|]. split; [exact Ho|].
  intros Hvalid.
  assert (Hoff : Forall (λ l, l < length (heap w')) (seq n0 (2 * k) ++ [n0 + 2 * k])).
  { apply Forall_forall. intros l Hl. rewrite <- Hseq in Hl. apply elem_of_seq in Hl.
    fold n0 in Hlen. lia. }
  destruct (evaluate_invalid_filter toolbox _ w' Hoff) as (w'' & Heval & _).
  exists w''. rewrite Heval. do 2 f_equal.
  rewrite filter_app, length_app.
  rewrite (filter_all (is_invalid (heap w'))).
  2: { eapply Forall_impl; [exact Hinv|]. apply invalid_at_is_invalid. }
  rewrite (filter_none (is_invalid (heap w')) [n0 + 2 * k]).
  2: { constructor; [|constructor]. unfold is_invalid. rewrite Ho.
       rewrite Forall_forall in Hvalid. specialize (Hvalid p Hin).
       unfold is_invalid in Hvalid. now rewrite Hlook in Hvalid. }
  rewrite length_seq. cbn [length]. lia.
Qed.

End Variation.

(** ** The environmental selection *)

Section Selection.
Context {Rng : Type} (toolbox : Toolbox Rng).
Implicit Types (w : World Rng) (h : list Individual) (fronts : list (list loc)).

Lemma mapM_length_run {A B} (f : A → Py Rng B) (l : list A) w k w' :
  mapM f l w = (Ok k, w') → length k = length l.
Proof.
  revert w k w'. induction l as [|x l IH]; intros w k w' H.
  - cbn in H. now injection H as <- _.
  - rewrite mapM_cons_run in H. destruct (f x w) as [[y|e] w1]; [|discriminate].
    destruct (mapM f l w1) as [[k'|e] w2] eqn:E; [|discriminate].
    injection H as <- _. cbn. f_equal. eapply IH, E.
Qed.

Lemma admitted_app mu n fronts rest :
  n + total fronts ≤ mu →
  admitted mu n (fronts ++ rest) = fronts ++ admitted mu (n + total fronts) rest ∧
  truncated mu n (fronts ++ rest) = truncated mu (n + total fronts) rest.
Proof.
  revert n. induction fronts as [|g gs IH]; intros n H.
  - cbn. unfold total. cbn. now rewrite Nat.add_0_r.
  - rewrite total_cons in H. cbn [app admitted truncated].
    destruct (Nat.leb_spec (n + length g) mu) as [_|Hlt]; [|lia].
    destruct (IH (n + length g)) as [Ha Ht]; [lia|].
    rewrite Ha, Ht, total_cons, Nat.add_assoc. now split.
Qed.

Lemma truncated_app mu n fronts rest f :
  truncated mu n fronts = Some f →
  truncated mu n (fronts ++ rest) = Some f ∧
  admitted mu n (fronts ++ rest) = admitted mu n fronts.
Proof.
  revert n. induction fronts as [|g gs IH]; intros n H; [discriminate|].
  cbn [app admitted truncated] in *. destruct (n + length g <=? mu).
  - destruct (IH _ H) as [Ht Ha]. now rewrite Ht, Ha.
  - now split.
Qed.

Lemma truncated_overflows mu fronts :
  mu < total fronts → ∃ f, truncated mu 0 fronts = Some f.
Proof.
  intros H. destruct (truncated mu 0 fronts) as [f|] eqn:E; [now exists f|].
  pose proof (admitted_length mu 0 fronts (Nat.le_0_l mu)) as Hle.
  rewrite (truncated_None _ _ _ E) in Hle. unfold total in H. lia.
Qed.

(** What [fill_chosen] returns when it returns. *)
Lemma fill_chosen_inv mu (chosen f : list loc) w result w' :
  fill_chosen toolbox mu chosen f w = (Ok result, w') →
  ∃ best, result = chosen ++ best ∧
    length best = (mu - length chosen) `min` length f ∧
    best ⊆ f ∧ (NoDup f → NoDup best).
Proof.
  unfold fill_chosen. intros H.
  apply bind_inv in H as (cs & w1 & _ & H).
  apply bind_inv in H as ([] & w2 & _ & H).
  apply bind_inv in H as (best & w3 & Hsel & H).
  injection H as <- _. exists best. split; [reflexivity|].
  unfold select, selBest in Hsel.
  apply bind_inv in Hsel as (inds & w4 & Hread & Hsel). injection Hsel as <- _.
  apply mapM_length_run in Hread.
  set (s := sorted_best (λ p : loc * Individual, fitness_hv p.2) (zip f inds)).
  assert (Hperm : s.*1 ≡ₚ f).
  { unfold s. rewrite sorted_best_perm, fst_zip by lia. reflexivity. }
  change (map fst s) with (s.*1). split; [|split].
  - now rewrite length_take, (Permutation_length Hperm).
  - intros x Hx. rewrite <- Hperm. eapply elem_of_sublist; [exact Hx|apply sublist_take].
  - intros Hnd. eapply sublist_NoDup; [|apply sublist_take]. now rewrite Hperm.
Qed.

Lemma select_fronts_length mu fronts w chosen w' :
  select_fronts toolbox mu [] fronts w = (Ok chosen, w') →
  length chosen = mu `min` total fronts.
Proof.
  rewrite select_fronts_split. cbn [length app].
  pose proof (admitted_length mu 0 fronts (Nat.le_0_l mu)) as Hadm.
  destruct (truncated mu 0 fronts) as [f|] eqn:Ht.
  - intros H. destruct (fill_chosen_inv _ _ _ _ _ _ H) as (best & -> & Hlen & _).
    pose proof (truncated_overflow _ _ _ _ Ht) as Hover.
    destruct (fronts_split _ _ _ _ Ht) as [rest Hsplit].
    set (adm := admitted mu 0 fronts) in *.
    assert (Htotal : total fronts = length (concat adm) + length f + total rest).
    { rewrite Hsplit at 1. unfold total.
      rewrite concat_app, length_app. cbn [concat]. rewrite length_app. lia. }
    rewrite length_app. lia.
  - intros H. injection H as <- _. rewrite (truncated_None _ _ _ Ht) in *.
    unfold total. lia.
Qed.

(** X12: what the loop over the fronts returns when it returns: [mu]
    individuals, or all of them when the fronts hold fewer, never more;
    every one of them is an individual of the fronts, and none is selected
    twice when no individual is in two fronts or twice in one. *)
Theorem select_fronts_size mu fronts w chosen w' :
  select_fronts toolbox mu [] fronts w = (Ok chosen, w') →
  length chosen = mu `min` total fronts ∧ chosen ⊆ concat fronts ∧
  (NoDup (concat fronts) → NoDup chosen).
Proof.
  intros H. split; [eapply select_fronts_length, H|].
  rewrite select_fronts_split in H. cbn [length app] in H.
  destruct (truncated mu 0 fronts) as [f|] eqn:Ht.
  - destruct (fill_chosen_inv _ _ _ _ _ _ H) as (best & -> & _ & Hsub & Hnd).
    destruct (fronts_split _ _ _ _ Ht) as [rest Hsplit].
    set (adm := admitted mu 0 fronts) in *. split.
    + intros x Hx. rewrite Hsplit, concat_app. cbn [concat].
      rewrite !elem_of_app. apply elem_of_app in Hx as [Hx|Hx]; [now left|].
      right. left. now apply Hsub.
    + intros Hall. rewrite Hsplit, concat_app in Hall. cbn [concat] in Hall.
      apply NoDup_app in Hall as (Ha & Hd & Hf). apply NoDup_app in Hf as (Hf & _ & _).
      apply NoDup_app. split; [exact Ha|]. split; [|now apply Hnd].
      intros x Hx Hb. apply (Hd x Hx). apply elem_of_app. left. now apply Hsub.
  - injection H as <- _. rewrite (truncated_None _ _ _ Ht) in *.
    split; [now intros x|auto].
Qed.

(** X13: the loop stops at the first front that does not fit: when the
    fronts hold more than [mu] individuals, whatever comes after them
    changes neither the result nor the world, failure included. *)
Theorem select_fronts_stops mu fronts rest w :
  mu < total fronts →
  select_fronts toolbox mu [] (fronts ++ rest) w = select_fronts toolbox mu [] fronts w.
Proof.
  intros H. destruct (truncated_overflows mu fronts H) as [f Hf].
  destruct (truncated_app mu 0 fronts rest f Hf) as [Ht Ha].
  rewrite !select_fronts_split. cbn [length]. now rewrite Ht, Ha, Hf.
Qed.

(** X14: when the fronts admitted whole hold exactly [mu] individuals and
    a front that is not empty follows, the loop still scores that front:
    [hypervolume_contrib] runs on it, with one call to the hypervolume
    routine and one more per individual, and the contributions are
    assigned to its individuals; then nothing is selected from it, and the
    result is the individuals of the fronts admitted. *)
Theorem select_fronts_exact_fill mu fronts (f : list loc) rest w rows :
  total fronts = mu → f ≠ [] →
  fitness_rows (heap w) f = Some rows → rectangular rows = true →
  ∃ ref,
    reference None (negated rows) = Ok ref ∧
    select_fronts toolbox mu [] (fronts ++ f :: rest) w
    = (Ok (concat fronts),
       set_heap (assign (heap w) (zip f (contributions (hypervolume toolbox)
                                            (negated rows) ref)))
         (add_calls (contrib_calls (negated rows) ref) w)) ∧
    length (contrib_calls (negated rows) ref) = S (length f).
Proof.
  intros Htotal Hne Hrows Hrect.
  pose proof (fitness_rows_length _ _ _ Hrows) as Hlen.
  assert (Href : ∃ ref, reference None (negated rows) = Ok ref).
  { destruct rows as [|r rs]; [|eexists; reflexivity].
    destruct f; [contradiction|discriminate]. }
  destruct Href as [ref Href]. exists ref. split; [exact Href|]. split.
  - destruct (admitted_app mu 0 fronts (f :: rest)) as [Ha Ht]; [cbn; lia|].
    rewrite select_fronts_split. cbn [length app]. rewrite Ha, Ht.
    cbn [admitted truncated].
    destruct (Nat.leb_spec (0 + total fronts + length f) mu) as [Hle|_].
    { destruct f; [contradiction|cbn in Hle; lia]. }
    rewrite app_nil_r.
    destruct (fill_chosen_run toolbox mu (concat fronts) f w rows ref Hrows Hrect Href)
      as (inds & _ & Hrun).
    rewrite Hrun. unfold total in Htotal. rewrite Htotal, Nat.sub_diag.
    cbn [take]. now rewrite app_nil_r.
  - unfold contrib_calls, negated. cbn [length].
    now rewrite length_map, length_seq, length_map, Hlen.
Qed.

(** X15: on a front of objects whose fitnesses hold tuples of one length,
    [hypervolume_contrib] fails in one case only, the empty front without a
    reference point; the failure is the [ValueError] of [numpy.max], raised
    before any call to the hypervolume routine: the world is what it
    was. *)
Theorem hypervolume_contrib_failure w (front : list loc) rows kargs_ref :
  fitness_rows (heap w) front = Some rows → rectangular rows = true →
  let r := hypervolume_contrib toolbox front kargs_ref w in
  ((∃ e, r.1 = Raise e) ↔ front = [] ∧ kargs_ref = None) ∧
  (∀ e, r.1 = Raise e → e = ValueError ∧ r.2 = w).
Proof.
  intros Hrows Hrect r.
  pose proof (fitness_rows_length _ _ _ Hrows) as Hlen.
  destruct (reference kargs_ref (negated rows)) as [ref|e0] eqn:Href.
  - assert (Hrun := hypervolume_contrib_run toolbox w front rows kargs_ref ref
                      Hrows Hrect Href).
    unfold r. rewrite Hrun. cbn [fst snd]. split.
    + split; [intros [e H]; discriminate|]. intros [-> ->].
      destruct rows; [discriminate|discriminate].
    + intros e H. discriminate.
  - assert (Hcase : front = [] ∧ kargs_ref = None ∧ e0 = ValueError).
    { destruct kargs_ref as [p|]; [discriminate|].
      destruct rows as [|row rows']; [|discriminate].
      destruct front; [|discriminate]. injection Href as <-. auto. }
    destruct Hcase as (-> & -> & ->).
    cbn in Hrows. injection Hrows as <-.
    assert (Hrun : r = (Raise ValueError, w)) by reflexivity.
    rewrite Hrun. cbn [fst snd]. split.
    + split; [auto|]. intros _. now exists ValueError.
    + intros e H. injection H as <-. auto.
Qed.

End Selection.

(** ** The generational loop *)

Section Generations.
Context {Rng : Type} (toolbox : Toolbox Rng).
Implicit Types (w : World Rng) (h : list Individual) (st : list loc * list LogEntry).

#[local] Existing Instance unchanged_preorder.

Lemma steps_run {A} (R : World Rng → World Rng → Prop) (m : Py Rng A) w r w' :
  steps R m → m w = (r, w') → R w w'.
Proof. intros H E. specialize (H w). now rewrite E in H. Qed.

Lemma select_fronts_stdout mu chosen fronts :
  steps (unchanged stdout) (select_fronts toolbox mu chosen fronts).
Proof.
  revert chosen. induction fronts as [|f fs IH]; intros chosen.
  - apply steps_ret; apply _.
  - cbn [select_fronts]. destruct (length chosen + length f <=? mu); [apply IH|].
    unfold fill_chosen.
    apply steps_bind; [apply _| |intros cs].
    { apply hypervolume_contrib_steps; [apply _|]. intros pointset ref w. reflexivity. }
    apply steps_bind; [apply _| |intros ?].
    { apply steps_for_each_in; [apply _|]. intros p _.
      apply (unchanged_update stdout (λ _ _, eq_refl) p.1
               (with_fitness_hv (set_values FitnessHV [p.2]))). }
    apply steps_bind; [apply _|apply selBest_steps; apply _|].
    intros best. apply steps_ret; apply _.
Qed.

Lemma select_next_stdout mu pop offspring :
  steps (unchanged stdout) (select_next toolbox mu pop offspring).
Proof.
  unfold select_next.
  apply steps_bind; [apply _|intros w; reflexivity|intros h].
  apply steps_bind; [apply _|intros w; reflexivity|intros ?].
  apply select_fronts_stdout.
Qed.

Lemma select_next_length mu pop offspring w chosen w' :
  select_next toolbox mu pop offspring w = (Ok chosen, w') →
  length chosen
  = mu `min` total (sort toolbox (heap w) (pop ++ offspring) (length (pop ++ offspring))).
Proof.
  unfold select_next. intros H.
  apply bind_inv in H as (h & w1 & Hh & H). injection Hh as <- <-.
  apply bind_inv in H as ([] & w2 & _ & H).
  eapply select_fronts_length, H.
Qed.

Lemma vary_length pop w offspring w' :
  vary toolbox pop w = (Ok offspring, w') → length offspring = length pop.
Proof.
  unfold vary. intros H.
  apply bind_inv in H as (off & w1 & Hclone & H).
  apply bind_inv in H as ([] & w2 & _ & H). injection H as <- _.
  unfold clone_offspring in Hclone.
  apply bind_inv in Hclone as (sel & w0 & Hsel & Hclone).
  rewrite selRandom_run in Hsel. injection Hsel as <- _.
  apply mapM_length_run in Hclone. rewrite Hclone.
  apply Permutation_length, draw_perm. lia.
Qed.

Lemma record_generation_inv gen evals pop logbook w logbook' w' :
  record_generation gen evals pop logbook w = (Ok logbook', w') →
  ∃ e, log_gen e = gen ∧ log_evals e = evals ∧ logbook' = logbook ++ [e] ∧
    stdout w' = stdout w ++ [PrintStream e].
Proof.
  unfold record_generation. intros H.
  apply bind_inv in H as (record & w1 & Hstats & H).
  injection H as <- <-. exists (mkLogEntry gen evals record).
  split; [reflexivity|]. split; [reflexivity|]. split; [reflexivity|].
  cbn [stdout]. f_equal.
  eapply (steps_run (unchanged stdout)), Hstats.
  apply unchanged_stats_compile; reflexivity.
Qed.

Lemma generation_inv mu gen st st' w w' :
  generation toolbox mu gen st w = (Ok st', w') →
  ∃ e, log_gen e = gen ∧ st'.2 = st.2 ++ [e] ∧
    stdout w' = stdout w ++ [PrintStream e] ∧
    ∃ h pool, length pool = 2 * length st.1 ∧
      length st'.1 = mu `min` total (sort toolbox h pool (length pool)).
Proof.
  unfold generation. intros H.
  apply bind_inv in H as (offspring & w1 & Hvary & H).
  apply bind_inv in H as (evals & w2 & Heval & H).
  apply bind_inv in H as (pop & w3 & Hsel & H).
  apply bind_inv in H as (logbook & w4 & Hrec & H). injection H as <- <-.
  destruct (record_generation_inv _ _ _ _ _ _ _ Hrec) as (e & Hgen & _ & Hlog & Hout).
  exists e. split; [exact Hgen|]. split; [exact Hlog|]. split.
  - rewrite Hout. f_equal.
    transitivity (stdout w2).
    { eapply (steps_run (unchanged stdout)), Hsel. apply select_next_stdout. }
    transitivity (stdout w1).
    { eapply (steps_run (unchanged stdout)), Heval.
      apply unchanged_evaluate_invalid; reflexivity. }
    eapply (steps_run (unchanged stdout)), Hvary. apply unchanged_vary; reflexivity.
  - exists (heap w2), (st.1 ++ offspring). split.
    + rewrite length_app, (vary_length _ _ _ _ Hvary). lia.
    + cbn [fst]. eapply select_next_length, Hsel.
Qed.

Lemma generations_inv mu gens st st' w w' :
  generations toolbox mu gens st w = (Ok st', w') →
  ∃ es, map log_gen es = gens ∧ st'.2 = st.2 ++ es ∧
    stdout w' = stdout w ++ map PrintStream es ∧
    ((∀ h pool, mu ≤ length pool → mu ≤ total (sort toolbox h pool (length pool))) →
     length st.1 = mu → length st'.1 = mu).
Proof.
  revert st w. induction gens as [|gen gens IH]; intros st w H.
  - cbn in H. injection H as <- <-. exists []. cbn. rewrite !app_nil_r. auto.
  - cbn [generations] in H. apply bind_inv in H as (st1 & w1 & Hgen & H).
    destruct (generation_inv _ _ _ _ _ _ Hgen)
      as (e & Hg & Hlog & Hout & h & pool & Hpool & Hsize).
    destruct (IH _ _ H) as (es & Hgs & Hlog' & Hout' & Hsize').
    exists (e :: es). cbn [map]. split; [now rewrite Hg, Hgs|].
    split; [now rewrite Hlog', Hlog, <- app_assoc|].
    split; [now rewrite Hout', Hout, <- app_assoc|].
    intros Hsort Hmu. apply Hsize'; [exact Hsort|].
    specialize (Hsort h pool). lia.
Qed.

Lemma mapM_read_inv (ls : list loc) w inds w' :
  mapM read ls w = (Ok inds, w') →
  w' = w ∧ Forall2 (λ l ind, heap w !! l = Some ind) ls inds.
Proof.
  revert inds. induction ls as [|l ls IH]; intros inds H.
  - cbn in H. injection H as <- <-. split; [reflexivity|constructor].
  - rewrite mapM_cons_run in H. unfold read at 1 in H.
    destruct (heap w !! l) as [ind|] eqn:E; [|discriminate].
    destruct (mapM read ls w) as [[k|e] w1] eqn:Hrest; [|discriminate].
    injection H as <- <-. destruct (IH k eq_refl) as [-> F].
    split; [reflexivity|now constructor].
Qed.

Lemma population_invalid n w inds w' :
  heap w' = heap w ++ inds → length inds = n →
  Forall (λ ind, ∃ genes, ind = new_Individual genes ∧ length genes = NDIM) inds →
  Forall (λ l, l < length (heap w')) (seq (length (heap w)) n) ∧
  Forall (λ l, is_invalid (heap w') l = true) (seq (length (heap w)) n).
Proof.
  intros Hheap Hn Hall. split.
  - apply Forall_forall. intros l Hl%elem_of_seq. rewrite Hheap, length_app. lia.
  - apply Forall_forall. intros l Hl%elem_of_seq. unfold is_invalid.
    rewrite Hheap, lookup_app_r by lia.
    destruct (lookup_lt_is_Some_2 inds (l - length (heap w))) as [ind Hind]; [lia|].
    rewrite Hind. rewrite Forall_forall in Hall.
    destruct (Hall ind) as (genes & -> & _); [eapply list_elem_of_lookup_2, Hind|].
    reflexivity.
Qed.

(** What a run of [evolve] that returns has been through. *)
Lemma evolve_inv ngen mu entropy s w pop logbook w' :
  evolve toolbox ngen mu entropy s w = (Ok (pop, logbook), w') →
  ∃ e es inds,
    log_gen e = 0 ∧ log_evals e = mu ∧ logbook = e :: es ∧
    map log_gen es = seq 1 (ngen - 1) ∧
    Forall2 (λ l ind, heap w' !! l = Some ind) pop inds ∧
    stdout w' = stdout w ++ map PrintStream logbook
                ++ [PrintFinal (final_hypervolume toolbox inds [11; 11]%float)] ∧
    ((∀ h pool, mu ≤ length pool → mu ≤ total (sort toolbox h pool (length pool))) →
     length pop = mu).
Proof.
  unfold evolve. intros H.
  apply bind_inv in H as ([] & w0 & Hseed & H).
  apply bind_inv in H as (pop0 & w1 & Hpop & H).
  apply bind_inv in H as (evals & w2 & Heval & H).
  apply bind_inv in H as (lb0 & w3 & Hrec & H).
  apply bind_inv in H as (st & w4 & Hgens & H).
  apply bind_inv in H as (inds & w5 & Hread & H).
  apply bind_inv in H as ([] & w6 & Hprint & H). injection H as -> <-.
  unfold print in Hprint. injection Hprint as <-.
  unfold random_seed, with_rng in Hseed. injection Hseed as <-.
  destruct (population_run toolbox (seq 0 mu) (mkWorld (heap w)
              (seed (py toolbox) (default entropy s)) (calls w) (stdout w)))
    as (news & w1' & Hpop' & Hheap & _ & Hout1 & Hn & Hall).
  unfold population in Hpop. rewrite Hpop' in Hpop. injection Hpop as <- <-.
  rewrite length_seq in Hn, Heval, Hgens. cbn [heap stdout] in *.
  destruct (population_invalid mu _ news w1' Hheap Hn Hall) as [Hvalid Hinv].
  cbn [heap] in Hvalid, Hinv.
  destruct (evaluate_invalid_filter toolbox _ w1' Hvalid) as (w2' & Heval' & Hfr & _).
  rewrite (filter_all _ _ Hinv), length_seq, Heval in Heval'. injection Heval' as -> <-.
  destruct Hfr as (_ & _ & _ & Hout2 & _).
  destruct (record_generation_inv _ _ _ _ _ _ _ Hrec) as (e & Hg & He & Hlog & Hout3).
  destruct (generations_inv _ _ _ _ _ _ Hgens) as (es & Hgs & Hlog' & Hout4 & Hsize).
  apply mapM_read_inv in Hread as [-> F].
  cbn [fst snd] in *. subst lb0. cbn [app] in Hlog'.
  exists e, es, inds. split; [exact Hg|]. split; [exact He|].
  split; [exact Hlog'|]. split; [exact Hgs|]. split; [exact F|]. split.
  - cbn [stdout]. rewrite Hout4, Hout3, Hout2, Hout1, Hlog'. cbn [map].
    now rewrite <- !app_assoc.
  - intros Hsort. apply Hsize; [exact Hsort|apply length_seq].
Qed.

(** X16: the logbook and the output of a run that returns: the logbook
    holds one record per generation, generation 0 to [ngen - 1] in order,
    the first one with the size of the population as its number of
    evaluations; the program prints every record as it is made and then the
    hypervolume of the population it returns, with respect to (11, 11), and
    nothing else. *)
Theorem evolve_logbook ngen mu entropy s w pop logbook w' :
  evolve toolbox ngen mu entropy s w = (Ok (pop, logbook), w') →
  map log_gen logbook = 0 :: seq 1 (ngen - 1) ∧
  (∃ e, head logbook = Some e ∧ log_evals e = mu) ∧
  ∃ inds, Forall2 (λ l ind, heap w' !! l = Some ind) pop inds ∧
    stdout w' = stdout w ++ map PrintStream logbook
                ++ [PrintFinal (final_hypervolume toolbox inds [11; 11]%float)].
Proof.
  intros H. destruct (evolve_inv _ _ _ _ _ _ _ _ H)
    as (e & es & inds & Hg & He & -> & Hgs & F & Hout & _).
  split; [cbn; now rewrite Hg, Hgs|]. split; [now exists e|].
  exists inds. now split.
Qed.

(** X17: the size of the population is kept: when the sorter returns at
    least [mu] individuals of any pool that holds as many, the population
    that a run returns has [mu] individuals, after any number of
    generations. *)
Theorem evolve_population_size ngen mu entropy s w pop logbook w' :
  (∀ h pool, mu ≤ length pool → mu ≤ total (sort toolbox h pool (length pool))) →
  evolve toolbox ngen mu entropy s w = (Ok (pop, logbook), w') →
  length pop = mu.
Proof.
  intros Hsort H. destruct (evolve_inv _ _ _ _ _ _ _ _ H)
    as (_ & _ & _ & _ & _ & _ & _ & _ & _ & Hsize).
  now apply Hsize.
Qed.

End Generations.

(** * The claims on examples *)

(** Without a seed, two runs differ when the entropy does. *)
Example evolve_without_seed :
  evolve example_toolbox 2 2 0 None (world_of [])
  ≠ evolve example_toolbox 2 2 1 None (world_of []).
Proof.
  intros H. apply (f_equal (λ r, heap r.2 !! 0)) in H. vm_compute in H. discriminate.
Qed.

Lemma evolve_deterministic_witness :
  heap (world_of []) = heap (mkWorld [] 7 [] []) ∧
  calls (world_of []) = calls (mkWorld [] 7 [] []) ∧
  stdout (world_of []) = stdout (mkWorld [] 7 [] []) ∧
  rng (world_of []) ≠ rng (mkWorld [] 7 [] []) ∧
  evolve example_toolbox 2 2 0 (Some 1%Z) (world_of [])
  = evolve example_toolbox 2 2 1 (Some 1%Z) (mkWorld [] 7 [] []).
Proof.
  split; [reflexivity|]. split; [reflexivity|]. split; [reflexivity|].
  split; [discriminate|].
  exact (proj1 (evolve_deterministic example_toolbox 2 2 0 1 1 (world_of [])
                  (mkWorld [] 7 [] []) eq_refl eq_refl eq_refl)).
Defined.

(** C1 as stated fails: a single front of one individual and the target size
    of [main]; the selection returns that one individual and no error. *)
Lemma select_fronts_short_population :
  total [[0]] < MU ∧
  ∃ pop, select_fronts example_toolbox MU [] [[0]] scenario = (Ok pop, scenario)
         ∧ length pop < MU.
Proof. split; [cbn; unfold MU; lia|]. exists [0]. split; [reflexivity|cbn; unfold MU; lia]. Qed.

Lemma select_fronts_insufficient_witness :
  total [[0]] < MU ∧
  select_fronts example_toolbox MU [] [[0]] scenario = (Ok (concat [[0]]), scenario) ∧
  length (concat [[0]]) < MU.
Proof.
  split; [cbn; unfold MU; lia|].
  apply (select_fronts_insufficient example_toolbox MU [[0]] scenario).
  cbn; unfold MU; lia.
Defined.

(** C2 as stated fails: with the population and the offspring of [main],
    100 individuals each, the size limit passed to the sorter is not 100. *)
Lemma select_next_limit_is_not_MU :
  ∃ k cs,
    calls (select_next example_toolbox MU (seq 0 MU) (seq MU MU)
             (world_of (replicate (2 * MU) (evaluated [1; 1]%float)))).2
    = CallSort (seq 0 MU ++ seq MU MU) k :: cs
    ∧ k ≠ MU.
Proof.
  destruct (select_next_calls example_toolbox MU (seq 0 MU) (seq MU MU)
              (world_of (replicate (2 * MU) (evaluated [1; 1]%float))))
    as (cs & H & _).
  exists (length (seq 0 MU ++ seq MU MU)), cs. split; [exact H|].
  rewrite length_app, !length_seq. unfold MU. lia.
Qed.

Lemma select_next_sort_limit_witness :
  length [0] = 1 ∧ length [1] = 1 ∧
  ∃ cs, calls (select_next example_toolbox 1 [0] [1] scenario).2
        = calls scenario ++ CallSort ([0] ++ [1]) (2 * 1) :: cs
      ∧ Forall is_hypervolume_call cs.
Proof.
  split; [reflexivity|]. split; [reflexivity|].
  apply (select_next_sort_limit example_toolbox 1 [0] [1] scenario); reflexivity.
Defined.

Lemma offspring_permutation_witness :
  Forall (λ l, l < length (heap scenario)) [0; 1; 2] ∧
  ∃ sel offspring w',
    clone_offspring example_toolbox [0; 1; 2] scenario = (Ok offspring, w') ∧
    sel ≡ₚ [0; 1; 2] ∧
    length offspring = 3 ∧
    Forall2 (λ l o, ∃ ind, heap scenario !! l = Some ind ∧ heap w' !! o = Some ind)
      sel offspring.
Proof.
  assert (H : Forall (λ l, l < length (heap scenario)) [0; 1; 2])
    by (repeat constructor; cbn; lia).
  split; [exact H|].
  destruct (offspring_permutation example_toolbox [0; 1; 2] scenario H)
    as (sel & offspring & w' & Hrun & Hperm & Hlen & _ & _ & F & _).
  exists sel, offspring, w'. repeat split; assumption.
Defined.

(** The front of the scenario can be scored. *)
Lemma scenario_scorable (f : list loc) :
  truncated 2 0 [[0; 1; 2]] = Some f → scorable example_toolbox scenario f.
Proof.
  intros H. injection H as <-. split.
  - apply NoDup_ListNoDup. repeat constructor; cbn; intuition lia.
  - exists [[-1; -5]; [-2; -3]; [-4; -1]]%float.
    split; [reflexivity|]. split; [reflexivity|].
    intros ref H. injection H as <-. repeat constructor.
Qed.

Lemma select_fronts_correct_witness :
  2 ≤ total [[0; 1; 2]] ∧
  ∃ chosen w',
    select_fronts example_toolbox 2 [] [[0; 1; 2]] scenario = (Ok chosen, w') ∧
    length chosen = 2 ∧
    ∀ f, truncated 2 0 [[0; 1; 2]] = Some f →
      ∃ kept, chosen = concat (admitted 2 0 [[0; 1; 2]]) ++ kept ∧ kept ⊆ f ∧
        ∀ x y, x ∈ kept → y ∈ f → y ∉ kept →
          ∃ ix iy sx sy, heap w' !! x = Some ix ∧ heap w' !! y = Some iy ∧
            score ix = Some sx ∧ score iy = Some sy ∧ (sy <=? sx)%float = true.
Proof.
  assert (H : 2 ≤ total [[0; 1; 2]]) by (cbn; lia).
  split; [exact H|].
  destruct (proj1 (select_fronts_correct example_toolbox) 2 [[0; 1; 2]] scenario H
              scenario_scorable) as (chosen & w' & Hrun & Hlen & _ & Htr).
  exists chosen, w'. split; [exact Hrun|]. split; [exact Hlen|].
  intros f Hf. destruct (Htr f Hf) as (kept & Hc & Hs & _ & Hord).
  exists kept. split; [exact Hc|]. split; [exact Hs|exact Hord].
Defined.

(** C5 as stated fails: on a front without individuals and without a
    reference point, [hypervolume_contrib] raises the [ValueError] of
    [numpy.max] and returns no sequence. *)
Lemma hypervolume_contrib_empty_front :
  hypervolume_contrib example_toolbox [] None scenario = (Raise ValueError, scenario).
Proof. reflexivity. Qed.

Lemma hypervolume_contrib_correct_witness :
  fitness_rows (heap scenario) [0; 1; 2] = Some [[-1; -5]; [-2; -3]; [-4; -1]]%float ∧
  rectangular [[-1; -5]; [-2; -3]; [-4; -1]]%float = true ∧
  ∃ ref cs w',
    hypervolume_contrib example_toolbox [0; 1; 2] None scenario = (Ok cs, w') ∧
    length cs = 3 ∧ heap w' = heap scenario ∧
    ∃ rest, calls w' = calls scenario
                       ++ CallHypervolume [[1; 5]; [2; 3]; [4; 1]]%float ref :: rest
            ∧ length rest = 3.
Proof.
  split; [reflexivity|]. split; [reflexivity|].
  destruct (hypervolume_contrib_correct example_toolbox scenario [0; 1; 2]
              [[-1; -5]; [-2; -3]; [-4; -1]]%float None eq_refl eq_refl)
    as (ref & cs & w' & Hrun & _ & Hlen & _ & (rest & Hcalls & Hrest & _) & Hheap);
    [discriminate|].
  exists ref, cs, w'. split; [exact Hrun|]. split; [exact Hlen|].
  split; [exact Hheap|]. exists rest. split; [exact Hcalls|exact Hrest].
Defined.

Lemma scenario_contributions_witness :
  hypervolume example_toolbox = hypervolume_spec ∧
  ∃ w', hypervolume_contrib example_toolbox [0; 1; 2] None scenario
        = (Ok [1; 4; 2]%float, w').
Proof.
  split; [reflexivity|].
  destruct (scenario_contributions example_toolbox scenario 0 1 2
              (evaluated [1; 5]%float) (evaluated [2; 3]%float) (evaluated [4; 1]%float)
              eq_refl eq_refl eq_refl eq_refl eq_refl eq_refl eq_refl)
    as (_ & _ & _ & _ & w' & Hrun & _).
  exists w'. exact Hrun.
Defined.

Lemma hypervolume_on_objective_values_witness :
  Forall (λ vs : point, length vs = 2) [[1; 5]; [2; 3]; [4; 1]]%float ∧
  ∃ ref cs w',
    hypervolume_contrib example_toolbox [0; 1; 2] None scenario = (Ok cs, w') ∧
    calls w' = calls scenario ++ CallHypervolume [[1; 5]; [2; 3]; [4; 1]]%float ref
               :: map (λ i, CallHypervolume
                              (take i [[1; 5]; [2; 3]; [4; 1]]%float
                               ++ drop (S i) [[1; 5]; [2; 3]; [4; 1]]%float) ref)
                    (seq 0 3).
Proof.
  assert (H : Forall (λ vs : point, length vs = 2) [[1; 5]; [2; 3]; [4; 1]]%float)
    by (repeat constructor).
  split; [exact H|].
  refine (proj2 (hypervolume_on_objective_values example_toolbox scenario [0; 1; 2]
                   [[1; 5]; [2; 3]; [4; 1]]%float None _ H _)).
  - repeat constructor; eexists; split; reflexivity.
  - discriminate.
Defined.

Lemma variation_invalidates_witness :
  Forall (λ l, l < length (heap scenario)) [0; 1] ∧
  ∃ offspring w' evals w'',
    vary example_toolbox [0; 1] scenario = (Ok offspring, w') ∧
    length offspring = 2 ∧
    Forall (invalid_at w') offspring ∧
    evaluate_invalid example_toolbox offspring w' = (Ok evals, w'') ∧
    evals = length offspring.
Proof.
  assert (H : Forall (λ l, l < length (heap scenario)) [0; 1])
    by (repeat constructor; cbn; lia).
  split; [exact H|].
  destruct (variation_invalidates example_toolbox [0; 1] scenario H)
    as (offspring & w' & evals & w'' & Hvary & Hlen & _ & _ & Heval & _ & _ & Heven & _).
  destruct Heven as [Hinv Hevals]; [now exists 1|].
  exists offspring, w', evals, w''. repeat split; assumption.
Defined.

(** * The further properties on examples *)

Lemma counting_unit_interval (g : nat) : unit_interval (random counting g).1.
Proof.
  unfold random, counting. cbn [fst].
  destruct (g `mod` 4) as [|[|[|n]]]; split; reflexivity.
Qed.

Lemma attr_float_genes_witness :
  ∃ genes g', attr_float example_toolbox scenario = (Ok genes, set_rng g' scenario) ∧
    length genes = NDIM ∧
    Forall (λ x, (BOUND_LOW <=? x)%float = true ∧ (x <? BOUND_UP)%float = true) genes.
Proof. apply (attr_float_genes example_toolbox scenario), counting_unit_interval. Defined.

Lemma evaluate_invalid_counts_witness :
  Forall (λ l, l < length (heap unevaluated)) [0; 1; 2] ∧
  ∃ w', evaluate_invalid example_toolbox [0; 1; 2] unevaluated = (Ok 2, w') ∧
    heap w' !! 0 = Some (evaluated [1; 5]%float) ∧
    heap w' !! 1 = Some (evaluated [2; 3]%float) ∧
    heap w' !! 2 = Some (evaluated [4; 1]%float).
Proof.
  assert (H : Forall (λ l, l < length (heap unevaluated)) [0; 1; 2])
    by (repeat constructor; cbn; lia).
  assert (Hnd : NoDup [0; 1; 2]).
  { apply NoDup_ListNoDup. repeat constructor; cbn; intuition lia. }
  split; [exact H|].
  destruct (evaluate_invalid_counts example_toolbox [0; 1; 2] unevaluated H)
    as (w' & Hrun & (_ & _ & _ & _ & Hfr) & Hpost).
  exists w'. split; [exact Hrun|]. split; [|split].
  - destruct (Hpost 0 (new_Individual [1; 5]%float)) as (x & _ & _ & Hx & Hlook);
      [now left|reflexivity|reflexivity|].
    now rewrite Hlook, (Hx Hnd).
  - destruct (Hfr 1 (evaluated [2; 3]%float) eq_refl) as (ind' & Hlook & _ & _ & Heq).
    rewrite Hlook, Heq; [reflexivity|]. intros [_ Hinv]. vm_compute in Hinv. discriminate.
  - destruct (Hpost 2 (new_Individual [4; 1]%float)) as (x & _ & _ & Hx & Hlook);
      [now right; right; left|reflexivity|reflexivity|].
    now rewrite Hlook, (Hx Hnd).
Defined.

Lemma evaluate_invalid_twice_witness :
  Forall (λ l, l < length (heap unevaluated)) [0; 1; 2] ∧
  (∀ ind, evaluate two_objectives ind ≠ []) ∧
  ∃ w',
    evaluate_invalid two_objectives [0; 1; 2] unevaluated = (Ok 2, w') ∧
    Forall (λ l, is_invalid (heap w') l = false) [0; 1; 2] ∧
    evaluate_invalid two_objectives [0; 1; 2] w' = (Ok 0, w').
Proof.
  assert (H : Forall (λ l, l < length (heap unevaluated)) [0; 1; 2])
    by (repeat constructor; cbn; lia).
  assert (Hev : ∀ ind, evaluate two_objectives ind ≠ []) by discriminate.
  split; [exact H|]. split; [exact Hev|].
  destruct (evaluate_invalid_twice two_objectives [0; 1; 2] unevaluated H Hev)
    as (n & w' & Hrun & Hvalid & Hagain).
  assert (Hn : (evaluate_invalid two_objectives [0; 1; 2] unevaluated).1 = Ok 2)
    by reflexivity.
  rewrite Hrun in Hn. injection Hn as ->.
  exists w'. split; [exact Hrun|]. split; [exact Hvalid|exact Hagain].
Defined.

Lemma vary_keeps_population_witness :
  Forall (λ l, l < length (heap scenario)) [0; 1; 2] ∧
  ∃ w', vary example_toolbox [0; 1; 2] scenario = (Ok [3; 4; 5], w') ∧
    ∀ l, l < 3 → heap w' !! l = heap scenario !! l.
Proof.
  assert (H : Forall (λ l, l < length (heap scenario)) [0; 1; 2])
    by (repeat constructor; cbn; lia).
  split; [exact H|].
  destruct (vary_keeps_population example_toolbox [0; 1; 2] scenario H)
    as (w' & Hrun & _ & Hfr & _).
  exists w'. split; [exact Hrun|exact Hfr].
Defined.

Lemma vary_odd_population_witness :
  Forall (λ l, l < length (heap scenario)) [0; 1; 2] ∧
  Nat.Odd (length [0; 1; 2]) ∧
  ∃ offspring w' o p ind,
    vary example_toolbox [0; 1; 2] scenario = (Ok offspring, w') ∧
    last offspring = Some o ∧ p ∈ [0; 1; 2] ∧
    heap scenario !! p = Some ind ∧ heap w' !! o = Some ind.
Proof.
  assert (H : Forall (λ l, l < length (heap scenario)) [0; 1; 2])
    by (repeat constructor; cbn; lia).
  assert (Hodd : Nat.Odd (length [0; 1; 2])) by now exists 1.
  split; [exact H|]. split; [exact Hodd|].
  destruct (vary_odd_population example_toolbox [0; 1; 2] scenario H Hodd)
    as (offspring & w' & o & p & ind & Hrun & Hlast & Hp & Hind & Ho & _).
  exists offspring, w', o, p, ind. repeat split; assumption.
Defined.

Lemma select_fronts_size_witness :
  ∃ chosen w',
    select_fronts example_toolbox 2 [] [[0; 1; 2]] scenario = (Ok chosen, w') ∧
    length chosen = 2 `min` total [[0; 1; 2]] ∧ chosen ⊆ concat [[0; 1; 2]].
Proof.
  destruct (select_fronts example_toolbox 2 [] [[0; 1; 2]] scenario)
    as [[chosen|e] w'] eqn:E; [|vm_compute in E; discriminate].
  exists chosen, w'. split; [reflexivity|].
  destruct (select_fronts_size example_toolbox 2 [[0; 1; 2]] scenario chosen w' E)
    as (Hlen & Hsub & _).
  now split.
Defined.

Lemma select_fronts_stops_witness :
  2 < total [[0; 1; 2]] ∧
  select_fronts example_toolbox 2 [] ([[0; 1; 2]] ++ [[0]]) scenario
  = select_fronts example_toolbox 2 [] [[0; 1; 2]] scenario.
Proof.
  assert (H : 2 < total [[0; 1; 2]]) by (cbn; lia).
  split; [exact H|].
  apply (select_fronts_stops example_toolbox 2 [[0; 1; 2]] [[0]] scenario H).
Defined.

Lemma select_fronts_exact_fill_witness :
  total [[0; 1]] = 2 ∧ [2] ≠ [] ∧
  ∃ w', select_fronts example_toolbox 2 [] ([[0; 1]] ++ [2] :: []) scenario
        = (Ok [0; 1], w') ∧
    length (calls w') = 2.
Proof.
  split; [reflexivity|]. split; [discriminate|].
  destruct (select_fronts_exact_fill example_toolbox 2 [[0; 1]] [2] [] scenario
              [[-4; -1]]%float eq_refl ltac:(discriminate) eq_refl eq_refl)
    as (ref & _ & Hrun & Hlen).
  eexists. split; [exact Hrun|]. cbn [calls set_heap add_calls scenario world_of app].
  exact Hlen.
Defined.

Lemma hypervolume_contrib_failure_witness :
  fitness_rows (heap scenario) [] = Some [] ∧ rectangular [] = true ∧
  ((∃ e, (hypervolume_contrib example_toolbox [] None scenario).1 = Raise e)
   ↔ @nil loc = [] ∧ @None point = None).
Proof.
  split; [reflexivity|]. split; [reflexivity|].
  apply (hypervolume_contrib_failure example_toolbox scenario [] [] None eq_refl eq_refl).
Defined.

Lemma evolve_logbook_witness :
  ∃ pop logbook w',
    evolve example_toolbox 2 2 0 (Some 1%Z) (world_of []) = (Ok (pop, logbook), w') ∧
    map log_gen logbook = [0; 1] ∧ length (stdout w') = 3.
Proof.
  destruct (evolve example_toolbox 2 2 0 (Some 1%Z) (world_of []))
    as [[[pop logbook]|e] w'] eqn:E; [|vm_compute in E; discriminate].
  exists pop, logbook, w'. split; [reflexivity|].
  destruct (evolve_logbook example_toolbox 2 2 0 (Some 1%Z) (world_of []) pop logbook w' E)
    as (Hgens & _ & inds & _ & Hout).
  split; [exact Hgens|]. rewrite Hout. cbn [stdout world_of app].
  rewrite length_app, length_map, <- (length_map log_gen), Hgens. reflexivity.
Defined.

Lemma evolve_population_size_witness :
  (∀ h pool, 2 ≤ length pool → 2 ≤ total (sort example_toolbox h pool (length pool))) ∧
  ∃ pop logbook w',
    evolve example_toolbox 3 2 0 (Some 1%Z) (world_of []) = (Ok (pop, logbook), w') ∧
    length pop = 2.
Proof.
  assert (Hsort : ∀ (h : list Individual) (pool : list loc), 2 ≤ length pool →
            2 ≤ total (sort example_toolbox h pool (length pool))).
  { intros h pool H. unfold total. cbn. now rewrite app_nil_r. }
  split; [exact Hsort|].
  destruct (evolve example_toolbox 3 2 0 (Some 1%Z) (world_of []))
    as [[[pop logbook]|e] w'] eqn:E; [|vm_compute in E; discriminate].
  exists pop, logbook, w'. split; [reflexivity|].
  exact (evolve_population_size example_toolbox 3 2 0 (Some 1%Z) (world_of [])
           pop logbook w' Hsort E).
Defined.
